(** * server.js: configuration, request handling and shutdown of the custom
      Next.js server

    The development embeds [src/unnamed/part_001] (the project's
    [server.js]).  The file is one script: three configuration constants
    read from [process.env], one request handler with a [try]/[catch], a
    [listen] callback, a [shutdown] function with its two callbacks, and the
    [then]/[catch] pair hung on [app.prepare()].  Each of them is a
    definition below, under the name the source gives it where it has one.

    What the script calls but does not define (the Node.js runtime: the
    event loop, [http.Server], [setTimeout], [process.exit]; and the
    rendering engine behind [app.prepare] and [handle]) is modelled by an
    explicit event loop over a process state, documented where it is
    defined.

    Strings are sequences of bytes: a JavaScript string is represented by
    its UTF-8 encoding, which is also how Node.js reads the values of
    [process.env]. *)

From stdpp Require Import base strings gmap list pretty.
From Stdlib Require Import ZArith Lia Ascii String.

Open Scope string_scope.
Open Scope Z_scope.

(** ** JavaScript values used by the script *)

(** The result of [parseInt]: a JavaScript number that is [NaN], an
    infinity, or a double with an integer value.  [parseInt10] only builds
    [Num z] for integers [z] that a double represents exactly. *)
Inductive jsnum : Type :=
| NaN
| Infinity (negative : bool)
| Num (z : Z).

#[global] Instance jsnum_eq_dec : EqDecision jsnum.
Proof. solve_decision. Defined.

(** An entry of [process.env] is a string or [undefined]; the whole
    environment is a finite map from names to strings. *)
Abbreviation environment := (gmap string string).

(** [a || b] for [a] a string or [undefined]: [undefined] and the empty
    string are falsy. *)
Definition js_or (a : option string) (b : string) : string :=
  match a with
  | None => b
  | Some "" => b
  | Some s => s
  end.

(** *** [parseInt(s, 10)] *)

(** White space skipped by [parseInt] (StrWhiteSpaceChar), by the length of
    its UTF-8 encoding.  One byte: TAB, LF, VT, FF, CR, SP. *)
Definition is_space (c : ascii) : bool :=
  let n := Z.of_nat (nat_of_ascii c) in
  ((9 <=? n) && (n <=? 13)) || (n =? 32).

(** Two bytes: U+00A0 (C2 A0). *)
Definition is_space2 (c1 c2 : ascii) : bool :=
  (Z.of_nat (nat_of_ascii c1) =? 194) && (Z.of_nat (nat_of_ascii c2) =? 160).

(** Three bytes: U+1680 (E1 9A 80), U+2000 to U+200A (E2 80 80 to E2 80 8A),
    U+2028 and U+2029 (E2 80 A8, E2 80 A9), U+202F (E2 80 AF),
    U+205F (E2 81 9F), U+3000 (E3 80 80), U+FEFF (EF BB BF). *)
Definition is_space3 (c1 c2 c3 : ascii) : bool :=
  let a := Z.of_nat (nat_of_ascii c1) in
  let b := Z.of_nat (nat_of_ascii c2) in
  let c := Z.of_nat (nat_of_ascii c3) in
  ((a =? 225) && (b =? 154) && (c =? 128))
  || ((a =? 226) && (b =? 128)
      && (((128 <=? c) && (c <=? 138)) || (c =? 168) || (c =? 169) || (c =? 175)))
  || ((a =? 226) && (b =? 129) && (c =? 159))
  || ((a =? 227) && (b =? 128) && (c =? 128))
  || ((a =? 239) && (b =? 187) && (c =? 191)).

Fixpoint skip_space (s : string) : string :=
  match s with
  | String c1 r1 =>
      if is_space c1 then skip_space r1
      else
        match r1 with
        | String c2 r2 =>
            if is_space2 c1 c2 then skip_space r2
            else
              match r2 with
              | String c3 r3 =>
                  if is_space3 c1 c2 c3 then skip_space r3 else s
              | EmptyString => s
              end
        | EmptyString => s
        end
  | EmptyString => s
  end.

Definition digit_of (c : ascii) : option Z :=
  let n := Z.of_nat (nat_of_ascii c) in
  if (48 <=? n) && (n <=? 57) then Some (n - 48) else None.

(** Reads the longest prefix of decimal digits; [acc] is [None] as long as
    no digit has been read. *)
Fixpoint read_digits (acc : option Z) (s : string) : option Z :=
  match s with
  | String c r =>
      match digit_of c with
      | Some d => read_digits (Some (10 * default 0 acc + d)) r
      | None => acc
      end
  | EmptyString => acc
  end.

(** The double nearest to a non-negative integer [m], ties to the even
    significand: integers below 2^53 are doubles themselves; a larger one
    keeps its 53 leading bits, rounded.  The result reaches 2^1024 exactly
    where a double overflows. *)
Definition round_double (m : Z) : Z :=
  if m <? 2 ^ 53 then m
  else
    let k := Z.log2 m - 52 in
    let q := m / 2 ^ k in
    let r := m mod 2 ^ k in
    let half := 2 ^ (k - 1) in
    let q' := if (half <? r) || ((r =? half) && Z.odd q) then q + 1 else q in
    q' * 2 ^ k.

(** [parseInt(s, 10)]: leading white space, an optional sign, then the
    longest run of decimal digits; [NaN] when there is no digit.  The value
    is the double nearest to the number the digits spell, which is how V8
    computes it. *)
Definition parseInt10 (s : string) : jsnum :=
  let s1 := skip_space s in
  let '(sign, s2) :=
    match s1 with
    | String "-"%char r => (-1, r)
    | String "+"%char r => (1, r)
    | _ => (1, s1)
    end in
  match read_digits None s2 with
  | None => NaN
  | Some m =>
      let v := round_double m in
      if 2 ^ 1024 <=? v then Infinity (sign <? 0) else Num (sign * v)
  end.

(** ** Configuration (source lines 58-66) *)

Module Config.

(** [const dev = process.env.NODE_ENV !== 'production';] *)
Definition dev (env : environment) : bool :=
  negb (bool_decide (env !! "NODE_ENV" = Some "production")).

(** [const hostname = process.env.HOSTNAME || '0.0.0.0';] *)
Definition hostname (env : environment) : string :=
  js_or (env !! "HOSTNAME") "0.0.0.0".

(** [const port = parseInt(process.env.PORT || '3000', 10);] *)
Definition port (env : environment) : jsnum :=
  parseInt10 (js_or (env !! "PORT") "3000").

(** The options object handed to the rendering engine:
    [next({ dev, hostname: dev ? 'localhost' : hostname })]. *)
Record next_options : Type := NextOptions {
  opt_dev : bool;
  opt_hostname : string
}.

Definition app_options (env : environment) : next_options :=
  {| opt_dev := dev env;
     opt_hostname := if dev env then "localhost" else hostname env |}.

(** The runtime mode as the script reports it
    ([dev ? 'development' : 'production']). *)
Inductive mode : Type := development | production.

#[global] Instance mode_eq_dec : EqDecision mode.
Proof. solve_decision. Defined.

Definition mode_of (env : environment) : mode :=
  if dev env then development else production.

Definition mode_name (m : mode) : string :=
  match m with development => "development" | production => "production" end.

End Config.

(** ** The request handler (source lines 74-84) *)

(** A thrown value or rejection reason, represented by the text with which
    [console.error] shows it. *)
Definition error : Type := string.

(** A line written by [console.log] ([Out]) or [console.error] ([Err]). *)
Inductive line : Type :=
| Out (s : string)
| Err (s : string).

Record request : Type := Request {
  method : string;
  url : string
}.

(** The response object [res] and what has gone out to the client:
    - [statusCode]: the property of that name, which the script may assign
      at any time;
    - [headersSent]: the status with which the head of the response was
      sent, once it has been sent; the client sees this status;
    - [body]: the chunks sent so far, in order;
    - [ended]: [end] has been called;
    - [closed]: the response has been closed, which happens shortly after it
      has ended or when the client has gone away. *)
Record response : Type := Response {
  statusCode : Z;
  headersSent : option Z;
  body : list string;
  ended : bool;
  closed : bool
}.

(** A [res] as [http.Server] hands it to the handler ([statusCode] starts
    at 200, nothing is sent). *)
Definition fresh_response : response :=
  {| statusCode := 200; headersSent := None; body := [];
     ended := false; closed := false |}.

(** How a call of the rendering delegate ends: its promise is fulfilled or
    rejected, or the call throws before returning a promise. *)
Inductive completion : Type :=
| Fulfilled
| Rejected (err : error)
| Thrown (err : error).

Module Handler.

(** The handler runs over its response object and the console, and may
    throw.  [unhandled] records that an 'error' event was emitted on the
    response: the script registers no listener for it, so the process dies
    of it once the running code has returned. *)
Record hstate : Type := HState {
  res : response;
  out : list line;
  unhandled : bool
}.

Definition M (A : Type) : Type := hstate -> (error + A) * hstate.

Definition ret {A} (a : A) : M A := fun s => (inr a, s).

Definition throw {A} (e : error) : M A := fun s => (inl e, s).

Definition bind {A B} (m : M A) (k : A -> M B) : M B :=
  fun s =>
    match m s with
    | (inl e, s') => (inl e, s')
    | (inr a, s') => k a s'
    end.

(** [try { m } catch (err) { h err }]: the state changes made before the
    throw stay. *)
Definition try_catch {A} (m : M A) (h : error -> M A) : M A :=
  fun s =>
    match m s with
    | (inl e, s') => h e s'
    | r => r
    end.

#[global] Instance M_ret : MRet M := @ret.
#[global] Instance M_bind : MBind M := fun A B k m => bind m k.

(** [console.error(msg, err)] *)
Definition console_error (msg : string) (err : error) : M unit :=
  fun s =>
    (inr tt, {| res := res s; out := out s ++ [Err (msg +:+ " " +:+ err)];
                unhandled := unhandled s |}).

(** [res.statusCode = n]: an assignment to the property; a head that has
    been sent is not sent again. *)
Definition set_statusCode (n : Z) : M unit :=
  fun s =>
    (inr tt, {| res := {| statusCode := n; headersSent := headersSent (res s);
                          body := body (res s); ended := ended (res s);
                          closed := closed (res s) |};
                out := out s; unhandled := unhandled s |}).

(** What [res.end(data)] does to the response: on a response that is
    neither ended nor closed it sends the head, if that has not been sent,
    with the current [statusCode], then sends [data] and ends the response;
    on a closed one nothing goes out any more; an ended one is left as it
    is. *)
Definition end_response (data : string) (r : response) : response :=
  if ended r then r
  else if closed r
       then {| statusCode := statusCode r; headersSent := headersSent r;
               body := body r; ended := true; closed := true |}
       else {| statusCode := statusCode r;
               headersSent := Some (default (statusCode r) (headersSent r));
               body := body r ++ [data]; ended := true; closed := false |}.

(** [res.end(data)] with a non-empty [data].  It never throws; called on a
    response that has ended but is not closed yet, it makes the response
    emit 'error' (write after end). *)
Definition res_end (data : string) : M unit :=
  fun s =>
    (inr tt, {| res := end_response data (res s);
                out := out s;
                unhandled := unhandled s
                             || (ended (res s) && negb (closed (res s))) |}).

(** [await c]: a rejected promise is thrown at the [await]; a call that
    threw never reaches it. *)
Definition await (c : completion) : M unit :=
  match c with
  | Fulfilled => ret tt
  | Rejected e => throw e
  | Thrown e => throw e
  end.

Section WithEngine.

(** [url.parse] and the engine's request handler are not part of the
    script.  [parse u true] either throws or yields a parsed URL;
    [handle req res parsedUrl] works on the response object and ends as a
    [completion]. *)
Context {parsedUrl : Type}.
Variable parse : string -> bool -> error + parsedUrl.
Variable handle : request -> response -> parsedUrl -> completion * response.

Definition call_parse (u : string) : M parsedUrl :=
  fun s => (parse u true, s).

Definition call_handle (req : request) (pu : parsedUrl) : M unit :=
  fun s =>
    let '(c, r) := handle req (res s) pu in
    await c {| res := r; out := out s; unhandled := unhandled s |}.

(** The function passed to [createServer]. *)
Definition requestHandler (req : request) : M unit :=
  try_catch
    (parsedUrl ← call_parse (url req);
     call_handle req parsedUrl)
    (fun err =>
       console_error "Error handling request:" err;;
       set_statusCode 500;;
       res_end "Internal Server Error").

(** One whole invocation on the response object the server supplies. *)
Definition handle_request (req : request) : (error + unit) * hstate :=
  requestHandler req
    {| res := fresh_response; out := []; unhandled := false |}.

End WithEngine.

End Handler.

(** ** The process: start-up and shutdown (source lines 72, 86-116) *)

Inductive signal : Type := SIGTERM | SIGINT.

Definition signal_name (sig : signal) : string :=
  match sig with SIGTERM => "SIGTERM" | SIGINT => "SIGINT" end.

(** How the process ended: [process.exit(code)] (an uncaught exception or an
    'error' event without listener counts as code 1), or killed by a signal
    nobody listens for. *)
Inductive exit_status : Type :=
| Exited (code : Z)
| Killed (sig : signal).

#[global] Instance signal_eq_dec : EqDecision signal.
Proof. solve_decision. Defined.
#[global] Instance exit_status_eq_dec : EqDecision exit_status.
Proof. solve_decision. Defined.

(** The state of the running script.  The script itself declares no state
    variable; everything below is state of the Node.js objects it creates:
    - [listening]: the address of the server's listening socket while that
      socket is open;
    - [connections]: the server's own count of open connections, the only
      count that [server.close] waits on;
    - [executing]: the handler invocations suspended at their [await];
    - [served]: the responses of the finished invocations, oldest first;
    - [closeListeners]: the callbacks given to [server.close] so far, all of
      them the same arrow function;
    - [timers]: the deadlines of the pending [setTimeout] calls, all of them
      with the same callback;
    - [prepared]: the promise of [app.prepare()] has settled;
    - [sigHandlers]: both [process.on] registrations were made. *)
Record process : Type := Process {
  clock : Z;
  prepared : bool;
  sigHandlers : bool;
  listening : option (Z * string);
  connections : Z;
  executing : list request;
  served : list (request * response);
  closeListeners : nat;
  timers : list Z;
  console : list line;
  status : option exit_status
}.

Definition set_clock (t : Z) (p : process) : process :=
  Process t (prepared p) (sigHandlers p) (listening p) (connections p)
    (executing p) (served p) (closeListeners p) (timers p) (console p) (status p).
Definition set_prepared (b : bool) (p : process) : process :=
  Process (clock p) b (sigHandlers p) (listening p) (connections p)
    (executing p) (served p) (closeListeners p) (timers p) (console p) (status p).
Definition set_sigHandlers (b : bool) (p : process) : process :=
  Process (clock p) (prepared p) b (listening p) (connections p)
    (executing p) (served p) (closeListeners p) (timers p) (console p) (status p).
Definition set_listening (a : option (Z * string)) (p : process) : process :=
  Process (clock p) (prepared p) (sigHandlers p) a (connections p)
    (executing p) (served p) (closeListeners p) (timers p) (console p) (status p).
Definition set_connections (n : Z) (p : process) : process :=
  Process (clock p) (prepared p) (sigHandlers p) (listening p) n
    (executing p) (served p) (closeListeners p) (timers p) (console p) (status p).
Definition set_executing (l : list request) (p : process) : process :=
  Process (clock p) (prepared p) (sigHandlers p) (listening p) (connections p)
    l (served p) (closeListeners p) (timers p) (console p) (status p).
Definition set_served (l : list (request * response)) (p : process) : process :=
  Process (clock p) (prepared p) (sigHandlers p) (listening p) (connections p)
    (executing p) l (closeListeners p) (timers p) (console p) (status p).
Definition set_closeListeners (n : nat) (p : process) : process :=
  Process (clock p) (prepared p) (sigHandlers p) (listening p) (connections p)
    (executing p) (served p) n (timers p) (console p) (status p).
Definition set_timers (l : list Z) (p : process) : process :=
  Process (clock p) (prepared p) (sigHandlers p) (listening p) (connections p)
    (executing p) (served p) (closeListeners p) l (console p) (status p).
Definition set_console (l : list line) (p : process) : process :=
  Process (clock p) (prepared p) (sigHandlers p) (listening p) (connections p)
    (executing p) (served p) (closeListeners p) (timers p) l (status p).
Definition set_status (s : option exit_status) (p : process) : process :=
  Process (clock p) (prepared p) (sigHandlers p) (listening p) (connections p)
    (executing p) (served p) (closeListeners p) (timers p) (console p) s.

(** The script at the moment [app.prepare()] has been called and nothing
    has happened yet. *)
Definition init : process :=
  {| clock := 0; prepared := false; sigHandlers := false; listening := None;
     connections := 0; executing := []; served := []; closeListeners := 0;
     timers := []; console := []; status := None |}.

(** *** Runtime operations the script calls *)

Definition console_log (s : string) (p : process) : process :=
  set_console (console p ++ [Out s]) p.

Definition console_error (s : string) (p : process) : process :=
  set_console (console p ++ [Err s]) p.

(** [process.exit(code)] ends the process; it does not return, and in the
    script it is always the last statement of its callback. *)
Definition process_exit (code : Z) (p : process) : process :=
  set_status (Some (Exited code)) p.

(** A callback runs only while the process lives. *)
Definition while_alive (f : process -> process) (p : process) : process :=
  match status p with
  | None => f p
  | Some _ => p
  end.

(** [setTimeout(callback, delay)] *)
Definition setTimeout (delay : Z) (p : process) : process :=
  set_timers (timers p ++ [clock p + delay]) p.

(** [server.close(callback)]: the callback becomes a one-time listener of
    the server's 'close' event (also when the server is already closed:
    then it is called with an error argument, which the script's callback
    does not look at), and the listening socket is closed.  From Node.js 19
    on the call also destroys the connections that are idle at that moment;
    in Node.js 18 it does not.  Either way a connection that ends, by
    whomever, is a [Disconnect] of its own in this model, so the call
    itself leaves the count as it is. *)
Definition server_close (p : process) : process :=
  set_listening None (set_closeListeners (S (closeListeners p)) p).

(** The multiple of [p] nearest to [z], ties to the even multiplier. *)
Definition nearest_multiple (z p : Z) : Z :=
  let q := z / p in
  let r := z mod p in
  let q' := if 2 * r <? p then q
            else if p <? 2 * r then q + 1
            else if Z.even q then q else q + 1 in
  q' * p.

Definition count_digits (z : Z) : Z := Z.of_nat (String.length (pretty z)).

(** The decimal number with the fewest significant digits that still
    denotes the double [z]: tried with [k] = 1, 2, ... digits. *)
Fixpoint shortest_decimal (fuel : nat) (k : Z) (z : Z) : Z :=
  match fuel with
  | O => z
  | S fuel' =>
      let c := nearest_multiple z (10 ^ (count_digits z - k)) in
      if round_double c =? z then c else shortest_decimal fuel' (k + 1) z
  end.

Fixpoint strip_zeros (fuel : nat) (z : Z) : Z :=
  match fuel with
  | O => z
  | S fuel' => if z mod 10 =? 0 then strip_zeros fuel' (z / 10) else z
  end.

(** [String(z)] for a positive double with integer value [z]: its shortest
    decimal, written out in full up to 21 digits and with an exponent
    beyond. *)
Definition positive_to_string (z : Z) : string :=
  let c := if z <? 2 ^ 53 then z
           else shortest_decimal (Z.to_nat (count_digits z)) 1 z in
  if count_digits c <=? 21 then pretty c
  else
    let e := pretty (count_digits c - 1) in
    match pretty (strip_zeros (Z.to_nat (count_digits c)) c) with
    | String d EmptyString => String d ("e+" +:+ e)
    | String d rest => String d ("." +:+ rest +:+ "e+" +:+ e)
    | EmptyString => EmptyString
    end.

(** [String(n)] for a number inside a template literal. *)
Definition jsnum_to_string (n : jsnum) : string :=
  match n with
  | NaN => "NaN"
  | Infinity negative => if negative then "-Infinity" else "Infinity"
  | Num z =>
      if z =? 0 then "0"
      else if z <? 0 then "-" +:+ positive_to_string (- z)
           else positive_to_string z
  end.

(** The port check of [server.listen]: an integer from 0 to 65535, anything
    else makes [listen] throw. *)
Definition valid_port (n : jsnum) : option Z :=
  match n with
  | Num z => if (0 <=? z) && (z <=? 65535) then Some z else None
  | NaN => None
  | Infinity _ => None
  end.

(** The earliest deadline among the pending timers. *)
Fixpoint earliest (ts : list Z) : option Z :=
  match ts with
  | [] => None
  | t :: r =>
      match earliest r with
      | None => Some t
      | Some m => Some (Z.min t m)
      end
  end.

Fixpoint remove_first (t : Z) (ts : list Z) : list Z :=
  match ts with
  | [] => []
  | u :: r => if decide (u = t) then r else u :: remove_first t r
  end.

(** What the environment of the process can do to it. *)
Inductive event : Type :=
| PrepareSettled (failure : option error) (bind_failure : option error)
    (* the promise of [app.prepare()] settles with [failure], or fulfilled;
       [bind_failure] is the error with which [listen], if it is then
       called, fails: thrown by the call for a port it refuses, or reported
       later when the address cannot be bound *)
| Connect                      (* a client opens a connection *)
| Incoming (req : request)     (* a request arrives on an open connection *)
| DelegateSettled (i : nat)    (* the delegate call of the [i]-th executing
                                  handler settles *)
| Disconnect                   (* an open connection ends *)
| Signal (sig : signal)
| Elapse (d : Z).              (* [d] milliseconds pass *)

Section Script.

Variable env : environment.
Context {parsedUrl : Type}.
Variable parse : string -> bool -> error + parsedUrl.
Variable handle : request -> response -> parsedUrl -> completion * response.

(** [(err) => { if (err) { ...; process.exit(1); } console.log(...); ... }],
    the callback given to [server.listen]. *)
Definition listenCallback (err : option error) (p : process) : process :=
  match err with
  | Some e =>
      process_exit 1 (console_error ("Failed to start server: " +:+ e) p)
  | None =>
      let shown :=
        if decide (Config.hostname env = "0.0.0.0") then "localhost"
        else Config.hostname env in
      let p := console_log ("> Ready on http://" +:+ shown +:+ ":"
                              +:+ jsnum_to_string (Config.port env)) p in
      console_log ("> Environment: "
                     +:+ Config.mode_name (Config.mode_of env)) p
  end.

(** [() => { console.log('Server closed'); process.exit(0); }] *)
Definition closeCallback (p : process) : process :=
  process_exit 0 (console_log "Server closed" p).

(** [() => { console.error('Forced shutdown after timeout'); process.exit(1); }] *)
Definition timeoutCallback (p : process) : process :=
  process_exit 1 (console_error "Forced shutdown after timeout" p).

(** [const shutdown = (signal) => { ... }] *)
Definition shutdown (sig : signal) (p : process) : process :=
  let p := console_log (signal_name sig +:+ " received: closing server") p in
  let p := server_close p in
  setTimeout 10000 p.

(** [.catch((err) => { console.error('Error starting server:', err); process.exit(1); })] *)
Definition startFailed (err : error) (p : process) : process :=
  process_exit 1 (console_error ("Error starting server: " +:+ err) p).

(** [app.prepare().then(() => { ... })]: create the server, [listen],
    register [shutdown] for both signals.  A port that [listen] refuses
    makes [listen] throw, which rejects the promise of [then] and so
    reaches [startFailed] with the thrown error; nothing after the [listen]
    call has run then.  (An event that lets [listen] go through with a port
    it refuses describes nothing that can happen; it is ignored.)
    Otherwise the socket is bound to [(port, hostname)] and the [listen]
    callback is called without an argument; a bind failure is an 'error'
    event of the server, for which the script has no listener, so the
    process dies of it (exit code 1) without a line of the script's own. *)
Definition startServer (bind_failure : option error) (p : process) : process :=
  match valid_port (Config.port env), bind_failure with
  | None, Some e => startFailed e (set_prepared true p)
  | None, None => p
  | Some n, bind_failure =>
      let p := set_sigHandlers true (set_prepared true p) in
      match bind_failure with
      | None => listenCallback None (set_listening (Some (n, Config.hostname env)) p)
      | Some e => process_exit 1 p
      end
  end.

(** The server emits 'close': its one-time listeners run in the order of
    their registration, as long as the process lives. *)
Definition emit_close (p : process) : process :=
  Nat.iter (closeListeners p) (while_alive closeCallback)
    (set_closeListeners 0 p).

(** The server emits 'close' once its listening socket is closed and no
    connection is left.  It checks this when [close] is called and when a
    connection ends, and emits after the running callback has returned. *)
Definition emitCloseIfDrained (p : process) : process :=
  match listening p with
  | Some _ => p
  | None => if connections p =? 0 then emit_close p else p
  end.

(** A handler invocation, taken as a whole at the moment its delegate call
    settles.  [http.Server] drops the promise of the handler; were it
    rejected, the process would die of the unhandled rejection, as it dies
    of an 'error' event emitted on the response. *)
Definition finish_request (req : request) (p : process) : process :=
  let '(r, hs) := Handler.handle_request parse handle req in
  let p := set_served (served p ++ [(req, Handler.res hs)]) p in
  let p := set_console (console p ++ Handler.out hs) p in
  match r with
  | inr _ => if Handler.unhandled hs then process_exit 1 p else p
  | inl e => process_exit 1 p
  end.

(** One turn of the event loop. *)
Definition step (p : process) (ev : event) : process :=
  match status p with
  | Some _ => p
  | None =>
      match ev with
      | PrepareSettled failure bind_failure =>
          if prepared p then p
          else
            match failure with
            | None => startServer bind_failure p
            | Some err => startFailed err (set_prepared true p)
            end
      | Connect =>
          match listening p with
          | Some _ => set_connections (connections p + 1) p
          | None => p
          end
      | Incoming req =>
          if 0 <? connections p then set_executing (executing p ++ [req]) p
          else p
      | DelegateSettled i =>
          match executing p !! i with
          | Some req => finish_request req (set_executing (delete i (executing p)) p)
          | None => p
          end
      | Disconnect =>
          if 0 <? connections p
          then emitCloseIfDrained (set_connections (connections p - 1) p)
          else p
      | Signal sig =>
          if sigHandlers p then emitCloseIfDrained (shutdown sig p)
          else set_status (Some (Killed sig)) p
      | Elapse d =>
          if d <? 0 then p
          else
            match earliest (timers p) with
            | Some t =>
                if t <=? clock p + d
                then timeoutCallback
                       (set_timers (remove_first t (timers p))
                          (set_clock (Z.max (clock p) t) p))
                else set_clock (clock p + d) p
            | None => set_clock (clock p + d) p
            end
      end
  end.

Definition run (p : process) (evs : list event) : process :=
  fold_left step evs p.

Inductive reachable : process -> Prop :=
| reach_init : reachable init
| reach_step p ev : reachable p -> reachable (step p ev).

End Script.

(** The coordinator state of the specification, read off the process (the
    script has no variable for it). *)
Inductive ShutdownState : Type := Starting | Running | Draining | Terminated.

Definition shutdownState (p : process) : ShutdownState :=
  match status p with
  | Some _ => Terminated
  | None =>
      match listening p with
      | Some _ => Running
      | None => if prepared p then Draining else Starting
      end
  end.

(** An engine for examples: [url.parse] accepts every target; the delegate
    answers "/" with a page, rejects on "/reject" before sending anything,
    throws on "/throw" after having sent the head and a chunk, and rejects
    on "/late" after having ended the response. *)
Definition demo_parse (u : string) (_ : bool) : error + string := inr u.

Definition demo_handle (req : request) (r : response) (pu : string)
  : completion * response :=
  let page (chunk : string) (finished : bool) : response :=
    {| statusCode := 200; headersSent := Some 200;
       body := body r ++ [chunk]; ended := finished; closed := false |} in
  if decide (pu = "/reject") then (Rejected "render failed", r)
  else if decide (pu = "/throw") then (Thrown "boom", page "<html>" false)
  else if decide (pu = "/late") then (Rejected "late", page "<html>ok</html>" true)
  else (Fulfilled, page "<html>ok</html>" true).

Definition GET (u : string) : request := {| method := "GET"; url := u |}.

(** ** Auxiliary notions for the proofs *)

(** Decimal numerals: the string of a list of digits and its value. *)
Definition digit_char (d : nat) : ascii := ascii_of_nat (48 + d).

Fixpoint digits_string (ds : list nat) : string :=
  match ds with
  | [] => EmptyString
  | d :: r => String (digit_char d) (digits_string r)
  end.

Definition digits_value (ds : list nat) : Z :=
  fold_left (fun acc d => 10 * acc + Z.of_nat d) ds 0.




(** What holds in every state the script can reach. *)
Record invariant (env : environment) (p : process) : Prop := Invariant {
  inv_count : 0 <= connections p;
  inv_before_prepare :
    prepared p = false ->
    sigHandlers p = false /\ listening p = None /\ connections p = 0 /\
    executing p = [] /\ served p = [] /\ timers p = [] /\
    closeListeners p = 0%nat;
  inv_handlers :
    status p = None -> prepared p = true -> sigHandlers p = true;
  inv_draining :
    status p = None -> prepared p = true -> listening p = None ->
    0 < connections p /\ closeListeners p <> 0%nat /\ timers p <> [];
  inv_running :
    status p = None -> is_Some (listening p) ->
    closeListeners p = 0%nat /\ timers p = [];
  inv_address :
    forall n h, listening p = Some (n, h) ->
    h = Config.hostname env /\ valid_port (Config.port env) = Some n;
  inv_future :
    status p = None -> Forall (fun t => clock p < t) (timers p);
  inv_recent :
    Forall (fun t => t <= clock p + 10000) (timers p)
}.

(** A grace timer with deadline [D], set no earlier than [c0], is pending
    and is the next to fire. *)
Definition grace_pending (c0 D : Z) (q : process) : Prop :=
  status q = None ->
  earliest (timers q) = Some D /\ c0 <= clock q /\ clock q < D.

(** Example processes. *)
Definition demo_run (env : environment) (evs : list event) : process :=
  run env demo_parse demo_handle init evs.

Definition demo_step (env : environment) (p : process) (ev : event) : process :=
  step env demo_parse demo_handle p ev.

(** One connection open, first SIGTERM received 500 ms ago. *)
Definition draining_demo : process :=
  demo_run ∅ [PrepareSettled None None; Connect; Signal SIGTERM; Elapse 500].

(** ** Further notions: time and the order of states *)

(** The time that passes during a sequence of events. *)
Fixpoint elapsed (evs : list event) : Z :=
  match evs with
  | [] => 0
  | Elapse d :: rest => Z.max 0 d + elapsed rest
  | _ :: rest => elapsed rest
  end.

(** The order in which the coordinator states follow each other. *)
Definition rank (s : ShutdownState) : nat :=
  match s with
  | Starting => 0
  | Running => 1
  | Draining => 2
  | Terminated => 3
  end.

(** ** The active-index store (src/src/store/useActiveIndexStore.js) *)

Module Store.

(** What the fields of the store hold: a number, or the action. *)
Inductive value : Type :=
| VNum (z : Z)
| VAction.

#[global] Instance value_eq_dec : EqDecision value.
Proof. solve_decision. Defined.

(** The state object of a store: its own properties by name. *)
Abbreviation state := (gmap string value).

(** The [set] that [create] hands to the initialiser: called with an object,
    it replaces the state by the old state overlaid with that object
    ([Object.assign({}, state, partial)]). *)
Definition set (partial : state) (st : state) : state := partial ∪ st.

(** [create((set) => ({ activeIndex: 2, setActiveIndex: ... }))]: the state
    the store starts with. *)
Definition initial : state :=
  {[ "activeIndex" := VNum 2; "setActiveIndex" := VAction ]}.

(** [setActiveIndex: (index) => set({ activeIndex: index })] *)
Definition setActiveIndex (index : value) (st : state) : state :=
  set {[ "activeIndex" := index ]} st.

(** A series of calls of the action, first call first. *)
Definition after_calls (indices : list value) : state :=
  fold_left (fun st index => setActiveIndex index st) indices initial.

End Store.

(** ** Facts about [parseInt10] *)

Lemma digit_of_digit_char (d : nat) :
  (d < 10)%nat -> digit_of (digit_char d) = Some (Z.of_nat d).
Proof.
  intros H. do 10 (destruct d as [|d]; [reflexivity|]). lia.
Qed.

Lemma skip_space_digit_char (d : nat) (r : string) :
  (d < 10)%nat ->
  skip_space (String (digit_char d) r) = String (digit_char d) r.
Proof.
  intros H.
  do 10 (destruct d as [|d];
         [destruct r as [|c2 [|c3 r3]]; reflexivity|]).
  lia.
Qed.

Lemma sign_digit_char (d : nat) (r : string) :
  (d < 10)%nat ->
  match String (digit_char d) r with
  | String "-"%char r' => (-1, r')
  | String "+"%char r' => (1, r')
  | _ => (1, String (digit_char d) r)
  end = (1, String (digit_char d) r).
Proof.
  intros H. do 10 (destruct d as [|d]; [reflexivity|]). lia.
Qed.

Lemma append_empty (t : string) : "" +:+ t = t.
Proof. reflexivity. Qed.

Lemma append_cons (c : ascii) (s t : string) :
  String c s +:+ t = String c (s +:+ t).
Proof. reflexivity. Qed.

(** Reading digits stops at the first character that is not one. *)
Lemma read_digits_string (ds : list nat) (suffix : string) (acc : option Z) :
  Forall (fun d => (d < 10)%nat) ds ->
  match suffix with
  | String c _ => digit_of c = None
  | EmptyString => True
  end ->
  ds <> [] \/ is_Some acc ->
  read_digits acc (digits_string ds +:+ suffix)
  = Some (fold_left (fun a d => 10 * a + Z.of_nat d) ds (default 0 acc)).
Proof.
  intros Hds Hsuf. revert acc.
  induction Hds as [|d ds Hd Hds IH]; intros acc Hne.
  - destruct Hne as [Hne | [a ->]]; [congruence|].
    cbn [digits_string fold_left default]. rewrite append_empty.
    destruct suffix as [|c r]; [reflexivity|].
    cbn [read_digits]. by rewrite Hsuf.
  - cbn [digits_string fold_left]. rewrite append_cons. cbn [read_digits].
    rewrite (digit_of_digit_char d Hd).
    rewrite IH by (right; eauto). reflexivity.
Qed.

Lemma digits_value_nonneg (ds : list nat) : 0 <= digits_value ds.
Proof.
  unfold digits_value.
  assert (forall acc, 0 <= acc ->
            0 <= fold_left (fun a d => 10 * a + Z.of_nat d) ds acc) as H.
  { induction ds as [|d ds IH]; intros acc Hacc; [done|].
    simpl. apply IH. lia. }
  by apply H.
Qed.

(** [parseInt] reads the leading decimal digits, ignores what follows them,
    and returns the double nearest to the number they spell. *)
Lemma parseInt10_digits_then (ds : list nat) (suffix : string) :
  Forall (fun d => (d < 10)%nat) ds -> ds <> [] ->
  match suffix with
  | String c _ => digit_of c = None
  | EmptyString => True
  end ->
  parseInt10 (digits_string ds +:+ suffix)
  = if 2 ^ 1024 <=? round_double (digits_value ds) then Infinity false
    else Num (round_double (digits_value ds)).
Proof.
  intros Hds Hne Hsuf.
  pose proof (read_digits_string ds suffix None Hds Hsuf (or_introl Hne)) as Hread.
  destruct Hds as [|d ds Hd Hds]; [congruence|].
  unfold parseInt10.
  cbn [digits_string] in *. rewrite append_cons in *.
  rewrite (skip_space_digit_char d _ Hd), (sign_digit_char d _ Hd), Hread.
  cbn [default]. fold (digits_value (d :: ds)).
  destruct (2 ^ 1024 <=? round_double (digits_value (d :: ds))); [reflexivity|].
  by rewrite Z.mul_1_l.
Qed.

(** *** Rounding to a double *)

Lemma round_double_small (m : Z) : m < 2 ^ 53 -> round_double m = m.
Proof.
  intros H. unfold round_double.
  destruct (m <? 2 ^ 53) eqn:Hlt; [reflexivity|].
  apply Z.ltb_ge in Hlt. lia.
Qed.

(** Rounding does not bring a large integer below 2^53. *)
Lemma round_double_large (m : Z) : 2 ^ 53 <= m -> 2 ^ 53 <= round_double m.
Proof.
  intros H. unfold round_double.
  destruct (m <? 2 ^ 53) eqn:Hlt; [apply Z.ltb_lt in Hlt; lia|]. clear Hlt.
  assert (0 < m) as Hpos by (pose proof (Z.pow_pos_nonneg 2 53); lia).
  assert (53 <= Z.log2 m) as Hlog.
  { rewrite <- (Z.log2_pow2 53) by lia. by apply Z.log2_le_mono. }
  set (k := Z.log2 m - 52).
  assert (1 <= k) as Hk by lia.
  assert (0 < 2 ^ k) as H2k by (apply Z.pow_pos_nonneg; lia).
  assert (2 ^ 52 <= m / 2 ^ k) as Hq.
  { apply Z.div_le_lower_bound; [done|].
    rewrite <- Z.pow_add_r by lia.
    replace (k + 52) with (Z.log2 m) by lia.
    by apply Z.log2_spec. }
  set (q := m / 2 ^ k) in *.
  assert (2 ^ 1 <= 2 ^ k) as H21 by (apply Z.pow_le_mono_r; lia).
  change (2 ^ 1) with 2 in H21.
  change (2 ^ 53) with (2 ^ 52 * 2).
  destruct ((2 ^ (k - 1) <? m mod 2 ^ k)
            || (m mod 2 ^ k =? 2 ^ (k - 1)) && Z.odd q);
    apply Z.mul_le_mono_nonneg; lia.
Qed.

Example parseInt_3000 : parseInt10 "3000" = Num 3000.
Proof. reflexivity. Qed.
Example parseInt_prefix : parseInt10 "  8080abc" = Num 8080.
Proof. reflexivity. Qed.
Example parseInt_word : parseInt10 "abc" = NaN.
Proof. reflexivity. Qed.
Example parseInt_negative : parseInt10 "-5" = Num (-5).
Proof. reflexivity. Qed.
Example parseInt_empty : parseInt10 "" = NaN.
Proof. reflexivity. Qed.
Example parseInt_numeral : digits_string [8; 0; 8; 0]%nat = "8080".
Proof. reflexivity. Qed.

(** ** Configuration *)

Lemma js_or_absent (b : string) : js_or None b = b.
Proof. reflexivity. Qed.

Lemma js_or_empty (b : string) : js_or (Some "") b = b.
Proof. reflexivity. Qed.

Lemma js_or_nonempty (s b : string) : s <> "" -> js_or (Some s) b = s.
Proof. intros H. destruct s; [congruence | reflexivity]. Qed.

Lemma parseInt10_Num_nonempty (s : string) (n : Z) :
  parseInt10 s = Num n -> s <> "".
Proof. intros H ->. discriminate H. Qed.

Lemma dev_spec (env : environment) :
  Config.dev env = false <-> env !! "NODE_ENV" = Some "production".
Proof.
  unfold Config.dev. rewrite negb_false_iff, bool_decide_eq_true. reflexivity.
Qed.

Lemma valid_port_spec (x : jsnum) (n : Z) :
  valid_port x = Some n <-> x = Num n /\ 0 <= n <= 65535.
Proof.
  destruct x as [| b |z]; simpl.
  - split; [discriminate | intros [? _]; discriminate].
  - split; [discriminate | intros [? _]; discriminate].
  - destruct (0 <=? z) eqn:H0; destruct (z <=? 65535) eqn:H1; simpl;
      split; intros H; simplify_eq; try (destruct H as [H ?]; simplify_eq);
      try (split; [reflexivity | lia]); try reflexivity; lia.
Qed.

Lemma valid_port_None (x : jsnum) :
  valid_port x = None <->
  x = NaN \/ (exists b, x = Infinity b) \/
  exists n, x = Num n /\ (n < 0 \/ 65535 < n).
Proof.
  destruct x as [| b |z]; simpl.
  - split; [by left | done].
  - split; [right; left; by exists b | done].
  - destruct (0 <=? z) eqn:H0; destruct (z <=? 65535) eqn:H1; simpl;
      split; intros H; try discriminate; try reflexivity;
      try (right; right; exists z; split; [reflexivity | lia]);
      destruct H as [H | [[b H] | (n & H & Hn)]]; simplify_eq; lia.
Qed.

(** Claim C3 (as amended): the resolved mode is production exactly when
    NODE_ENV is the string "production"; when NODE_ENV is absent, or has any
    other value, the mode is development. *)
Theorem C3_mode_resolution (env : environment) :
  (Config.mode_of env = Config.production
   <-> env !! "NODE_ENV" = Some "production") /\
  (Config.mode_of env = Config.development
   <-> env !! "NODE_ENV" <> Some "production").
Proof.
  unfold Config.mode_of. destruct (Config.dev env) eqn:Hdev.
  - assert (env !! "NODE_ENV" <> Some "production") as Hne.
    { intros H. apply dev_spec in H. congruence. }
    split; split; try done.
  - apply dev_spec in Hdev. split; split; try done.
Qed.

(** Claim C3 fails as stated: with NODE_ENV absent the resolved mode is
    development, not production; so it is with an unrecognised value. *)
Lemma C3_absent_is_development :
  (∅ : environment) !! "NODE_ENV" = None /\
  Config.mode_of ∅ = Config.development /\
  Config.mode_of ∅ <> Config.production /\
  Config.mode_of {[ "NODE_ENV" := "prod" ]} = Config.development.
Proof. vm_compute. repeat split; congruence. Qed.

(** Claim C10: a PORT that is present but empty resolves to port 3000, as an
    absent PORT does. *)
Theorem C10_empty_port_is_default (env : environment) :
  env !! "PORT" = Some "" ->
  Config.port env = Num 3000 /\
  Config.port env = Config.port (delete "PORT" env).
Proof.
  intros H. unfold Config.port. rewrite H, lookup_delete_eq. split; reflexivity.
Qed.

Lemma C10_witness :
  Config.port {[ "PORT" := "" ]} = Num 3000 /\
  Config.port {[ "PORT" := "" ]} = Config.port (delete "PORT" {[ "PORT" := "" ]}).
Proof. apply (C10_empty_port_is_default {[ "PORT" := "" ]}). reflexivity. Defined.

(** ** The request handler *)

Section HandlerFacts.

Context {parsedUrl : Type}.
Variable parse : string -> bool -> error + parsedUrl.
Variable handle : request -> response -> parsedUrl -> completion * response.

Ltac run_handler :=
  unfold Handler.handle_request, Handler.requestHandler, Handler.try_catch,
    mbind, Handler.M_bind, Handler.bind, Handler.call_parse,
    Handler.call_handle, Handler.await, Handler.console_error,
    Handler.set_statusCode, Handler.res_end, Handler.ret, Handler.throw;
  cbn [Handler.res Handler.out Handler.unhandled].

(** Whatever the delegate does, nothing is thrown out of the handler. *)
Lemma handle_request_returns (req : request) :
  fst (Handler.handle_request parse handle req) = inr tt.
Proof.
  run_handler.
  destruct (parse (url req) true) as [e | pu]; [reflexivity|].
  destruct (handle req fresh_response pu) as [[| e | e] r]; reflexivity.
Qed.


(** A fulfilled delegate call: the response is the delegate's, untouched. *)
Lemma handle_request_success (req : request) (pu : parsedUrl) (r : response) :
  parse (url req) true = inr pu ->
  handle req fresh_response pu = (Fulfilled, r) ->
  Handler.handle_request parse handle req
  = (inr tt, {| Handler.res := r; Handler.out := [];
                Handler.unhandled := false |}).
Proof.
  intros Hp Hh. run_handler. rewrite Hp, Hh. reflexivity.
Qed.




End HandlerFacts.

(** ** The event loop *)

Section ScriptFacts.

Variable env : environment.
Context {parsedUrl : Type}.
Variable parse : string -> bool -> error + parsedUrl.
Variable handle : request -> response -> parsedUrl -> completion * response.

Local Abbreviation step' := (step env parse handle).
Local Abbreviation run' := (run env parse handle).
Local Abbreviation reachable' := (reachable env parse handle).
Local Abbreviation finish_request' := (finish_request parse handle).

(** Nothing happens in a process that has ended. *)
Lemma step_ended (p : process) (ev : event) :
  status p <> None -> step' p ev = p.
Proof. unfold step. destruct (status p); [reflexivity | congruence]. Qed.

Lemma run_ended (p : process) (evs : list event) :
  status p <> None -> run' p evs = p.
Proof.
  intros H. induction evs as [|ev evs IH]; [reflexivity|].
  cbn [run fold_left]. rewrite step_ended by assumption. exact IH.
Qed.

Lemma run_snoc (p : process) (evs : list event) (ev : event) :
  run' p (evs ++ [ev]) = step' (run' p evs) ev.
Proof. unfold run. by rewrite fold_left_app. Qed.

Lemma reachable_run (p : process) (evs : list event) :
  reachable' p -> reachable' (run' p evs).
Proof.
  revert p. induction evs as [|ev evs IH]; intros p Hp; [exact Hp|].
  apply IH. by constructor.
Qed.

(** *** Timers *)

Lemma earliest_None (ts : list Z) : earliest ts = None <-> ts = [].
Proof.
  destruct ts as [|t r]; [done|]. simpl. destruct (earliest r); done.
Qed.

Lemma earliest_lower_bound (ts : list Z) (m : Z) :
  earliest ts = Some m -> Forall (fun t => m <= t) ts.
Proof.
  revert m. induction ts as [|t r IH]; intros m H; [constructor|].
  simpl in H. destruct (earliest r) as [m'|] eqn:Hr.
  - injection H as <-. constructor; [lia|].
    eapply Forall_impl; [apply IH; reflexivity|]. simpl. intros. lia.
  - injection H as <-. apply earliest_None in Hr as ->. repeat constructor. lia.
Qed.

Lemma earliest_elem (ts : list Z) (m : Z) :
  earliest ts = Some m -> m ∈ ts.
Proof.
  revert m. induction ts as [|t r IH]; intros m H; [discriminate|].
  simpl in H. destruct (earliest r) as [m'|] eqn:Hr.
  - injection H as <-. destruct (Z.min_spec t m') as [[_ ->] | [_ ->]].
    + set_solver.
    + specialize (IH m' eq_refl). set_solver.
  - injection H as <-. set_solver.
Qed.

Lemma earliest_snoc_min (ts : list Z) (m t : Z) :
  earliest ts = Some m -> earliest (ts ++ [t]) = Some (Z.min m t).
Proof.
  revert m. induction ts as [|u r IH]; intros m H; [discriminate|].
  simpl in *. destruct (earliest r) as [m'|] eqn:Hr.
  - injection H as <-. rewrite (IH m' eq_refl). f_equal. lia.
  - injection H as <-. apply earliest_None in Hr as ->. reflexivity.
Qed.

Lemma earliest_snoc (ts : list Z) (m t : Z) :
  earliest ts = Some m -> m <= t -> earliest (ts ++ [t]) = Some m.
Proof.
  intros H Hle. rewrite (earliest_snoc_min ts m t H). f_equal. lia.
Qed.

Lemma remove_first_Forall (P : Z -> Prop) (t : Z) (ts : list Z) :
  Forall P ts -> Forall P (remove_first t ts).
Proof.
  induction 1 as [|u r Hu Hr IH]; simpl; [constructor|].
  destruct (decide (u = t)); [assumption | by constructor].
Qed.

(** *** The 'close' event *)

Lemma iter_while_alive_ended (f : process -> process) (n : nat) (p : process) :
  status p <> None -> Nat.iter n (while_alive f) p = p.
Proof.
  intros H. induction n as [|n IH]; [reflexivity|].
  simpl. rewrite IH. unfold while_alive. destruct (status p); congruence.
Qed.

(** With at least one callback waiting, the first one runs and ends the
    process; the others never run. *)
Lemma emit_close_first (p : process) :
  status p = None -> closeListeners p <> 0%nat ->
  emit_close p = closeCallback (set_closeListeners 0 p).
Proof.
  intros Hs Hn. unfold emit_close.
  destruct (closeListeners p) as [|n]; [congruence|].
  rewrite Nat.iter_succ_r.
  assert (while_alive closeCallback (set_closeListeners 0 p)
          = closeCallback (set_closeListeners 0 p)) as ->.
  { unfold while_alive. simpl. by rewrite Hs. }
  by apply iter_while_alive_ended.
Qed.

Lemma emit_close_none (p : process) :
  closeListeners p = 0%nat -> emit_close p = set_closeListeners 0 p.
Proof. intros H. unfold emit_close. by rewrite H. Qed.

(** *** The invariant *)

Lemma init_invariant : invariant env init.
Proof.
  split; simpl; try done; try lia.
Qed.

(** The response and the console lines of a finished invocation are
    recorded; the process dies if the response has emitted 'error'. *)
Lemma finish_request_eq (req : request) (p : process) :
  finish_request' req p
  = (if Handler.unhandled (snd (Handler.handle_request parse handle req))
     then process_exit 1 else id)
      (set_console (console p ++ Handler.out (snd (Handler.handle_request parse handle req)))
         (set_served (served p ++ [(req, Handler.res (snd (Handler.handle_request parse handle req)))]) p)).
Proof.
  unfold finish_request.
  pose proof (handle_request_returns parse handle req) as H.
  destruct (Handler.handle_request parse handle req) as [r hs].
  simpl in H. subst r. simpl. by destruct (Handler.unhandled hs).
Qed.

Ltac inv_goal :=
  split; simpl; intros; simplify_eq/=; try done; try lia; try congruence;
  try (by match goal with H : is_Some _ |- _ => destruct H as [? ?]; simpl in *; congruence end);
  eauto.

Lemma step_invariant (p : process) (ev : event) :
  invariant env p -> invariant env (step' p ev).
Proof.
  intros Hinv. unfold step.
  destruct (status p) as [s|] eqn:Hst; [exact Hinv|].
  pose proof (inv_count _ _ Hinv) as Hc.
  pose proof (inv_before_prepare _ _ Hinv) as Hb.
  pose proof (inv_handlers _ _ Hinv Hst) as Hh.
  pose proof (inv_draining _ _ Hinv Hst) as Hd.
  pose proof (inv_running _ _ Hinv Hst) as Hr.
  pose proof (inv_address _ _ Hinv) as Ha.
  pose proof (inv_future _ _ Hinv Hst) as Hf.
  pose proof (inv_recent _ _ Hinv) as Hn.
  destruct ev as [failure bf | | req | i | | sig | d].
  - (* PrepareSettled *)
    destruct (prepared p) eqn:Hp; [exact Hinv|].
    destruct (Hb eq_refl) as (Hsig & Hl & Hcn & Hex & Hsv & Htm & Hcl).
    assert (forall e, invariant env (startFailed e (set_prepared true p))) as Hfail.
    { intros e. inv_goal. }
    destruct failure as [err|]; [apply Hfail|].
    unfold startServer.
    destruct (valid_port (Config.port env)) as [n|] eqn:Hport.
    + destruct bf as [e|]; inv_goal.
    + destruct bf as [e|]; [apply Hfail | exact Hinv].
  - (* Connect *)
    destruct (listening p) as [a|] eqn:Hl; [|exact Hinv].
    assert (prepared p = true) as Hp.
    { destruct (prepared p); [done|]. destruct (Hb eq_refl) as (_ & ? & _). done. }
    inv_goal.
  - (* Incoming *)
    destruct (0 <? connections p) eqn:Hpos; [|exact Hinv].
    apply Z.ltb_lt in Hpos.
    assert (prepared p = true) as Hp.
    { destruct (prepared p); [done|]. destruct (Hb eq_refl) as (_ & _ & ? & _). lia. }
    inv_goal.
  - (* DelegateSettled *)
    destruct (executing p !! i) as [req|] eqn:Hi; [|exact Hinv].
    assert (prepared p = true) as Hp.
    { destruct (prepared p); [done|].
      destruct (Hb eq_refl) as (_ & _ & _ & Hex & _).
      rewrite Hex in Hi. discriminate. }
    rewrite finish_request_eq.
    destruct (Handler.unhandled _); inv_goal.
  - (* Disconnect *)
    destruct (0 <? connections p) eqn:Hpos; [|exact Hinv].
    apply Z.ltb_lt in Hpos.
    assert (prepared p = true) as Hp.
    { destruct (prepared p); [done|]. destruct (Hb eq_refl) as (_ & _ & ? & _). lia. }
    unfold emitCloseIfDrained. simpl.
    destruct (listening p) as [a|] eqn:Hl.
    + inv_goal.
    + destruct (Hd Hp eq_refl) as (_ & Hcl & Htm).
      destruct (connections p - 1 =? 0) eqn:Hz.
      * rewrite emit_close_first by (simpl; done).
        inv_goal.
      * apply Z.eqb_neq in Hz.
        inv_goal.
        repeat split; [lia | done | done].
  - (* Signal *)
    destruct (sigHandlers p) eqn:Hsig; [|inv_goal].
    2: { destruct (Hb H) as (? & ? & ? & ? & ? & ? & ?). repeat split; done. }
    assert (prepared p = true) as Hp.
    { destruct (prepared p); [done|]. destruct (Hb eq_refl) as (? & _). congruence. }
    unfold emitCloseIfDrained, shutdown, server_close, setTimeout, console_log.
    simpl.
    assert (Forall (fun t => t <= clock p + 10000) (timers p ++ [clock p + 10000])) as Hn'.
    { apply Forall_app. split; [done|]. repeat constructor. lia. }
    assert (Forall (fun t => clock p < t) (timers p ++ [clock p + 10000])) as Hf'.
    { apply Forall_app. split; [done|]. repeat constructor. lia. }
    destruct (connections p =? 0) eqn:Hz.
    + rewrite emit_close_first by (simpl; done).
      inv_goal.
    + apply Z.eqb_neq in Hz.
      inv_goal. repeat split; [lia | done |].
      intros Happ. apply app_eq_nil in Happ as [_ ?]. done.
  - (* Elapse *)
    destruct (d <? 0) eqn:Hd0; [exact Hinv|].
    apply Z.ltb_ge in Hd0.
    destruct (earliest (timers p)) as [t|] eqn:He.
    + destruct (t <=? clock p + d) eqn:Hle.
      * unfold timeoutCallback.
        assert (Forall (fun u => u <= Z.max (clock p) t + 10000)
                  (remove_first t (timers p))) as Hn'.
        { apply remove_first_Forall.
          eapply Forall_impl; [exact Hn|]. simpl. intros. lia. }
        inv_goal.
        destruct (Hb H) as (? & ? & ? & ? & ? & Htm & ?).
        rewrite Htm in He. discriminate.
      * apply Z.leb_gt in Hle.
        apply earliest_lower_bound in He.
        assert (Forall (fun u => clock p + d < u) (timers p)) as Hf'.
        { eapply Forall_impl; [exact He|]. simpl. intros. lia. }
        assert (Forall (fun u => u <= clock p + d + 10000) (timers p)) as Hn'.
        { eapply Forall_impl; [exact Hn|]. simpl. intros. lia. }
        inv_goal.
    + apply earliest_None in He.
      inv_goal; rewrite He; constructor.
Qed.

Lemma reachable_invariant (p : process) :
  reachable' p -> invariant env p.
Proof.
  induction 1 as [|p ev _ IH]; [apply init_invariant | by apply step_invariant].
Qed.

(** *** Single turns of the loop *)

Lemma emitCloseIfDrained_frame (p : process) :
  status p = None ->
  let q := emitCloseIfDrained p in
  clock q = clock p /\ connections q = connections p /\
  listening q = listening p /\ executing q = executing p /\
  served q = served p /\ timers q = timers p /\
  prepared q = prepared p /\ sigHandlers q = sigHandlers p.
Proof.
  intros Hst. unfold emitCloseIfDrained.
  destruct (listening p) eqn:Hl; [by rewrite Hl|].
  destruct (connections p =? 0); [|by rewrite Hl].
  destruct (closeListeners p) eqn:Hn.
  - rewrite emit_close_none by done. simpl. by rewrite Hl.
  - rewrite emit_close_first by (done || lia). simpl. by rewrite Hl.
Qed.

(** The socket closed and the last connection gone: the first close
    callback logs and ends the process with status 0. *)
Lemma emitCloseIfDrained_drained (p : process) :
  status p = None -> listening p = None -> connections p = 0 ->
  closeListeners p <> 0%nat ->
  let q := emitCloseIfDrained p in
  status q = Some (Exited 0) /\ console q = (console p ++ [Out "Server closed"])%list.
Proof.
  intros Hst Hl Hc Hn. unfold emitCloseIfDrained.
  rewrite Hl, Hc. simpl. rewrite emit_close_first by done.
  split; reflexivity.
Qed.

Lemma emitCloseIfDrained_busy (p : process) :
  connections p <> 0 -> emitCloseIfDrained p = p.
Proof.
  intros Hc. unfold emitCloseIfDrained.
  destruct (listening p); [reflexivity|].
  destruct (connections p =? 0) eqn:Hz; [|reflexivity].
  apply Z.eqb_eq in Hz. contradiction.
Qed.

Lemma step_signal (p : process) (sig : signal) :
  status p = None -> sigHandlers p = true ->
  step' p (Signal sig) = emitCloseIfDrained (shutdown sig p).
Proof. intros Hst Hs. unfold step. by rewrite Hst, Hs. Qed.

Lemma step_settled (p : process) (i : nat) (req : request) :
  status p = None -> executing p !! i = Some req ->
  step' p (DelegateSettled i)
  = finish_request' req (set_executing (delete i (executing p)) p).
Proof. intros Hst Hi. unfold step. by rewrite Hst, Hi. Qed.

(** Only accepting and ending a connection change the server's count. *)
Lemma step_connections (p : process) (ev : event) :
  ev <> Connect -> ev <> Disconnect ->
  connections (step' p ev) = connections p.
Proof.
  intros H1 H2. unfold step.
  destruct (status p) eqn:Hst; [reflexivity|].
  destruct ev as [failure bf | | req | i | | sig | d]; try done.
  - destruct (prepared p); [reflexivity|].
    destruct failure; [reflexivity|]. unfold startServer.
    by destruct (valid_port _), bf.
  - by destruct (0 <? connections p).
  - destruct (executing p !! i); [|reflexivity].
    rewrite finish_request_eq. by destruct (Handler.unhandled _).
  - destruct (sigHandlers p); [|reflexivity].
    by destruct (emitCloseIfDrained_frame (shutdown sig p) Hst) as (_ & -> & _).
  - destruct (d <? 0); [reflexivity|].
    destruct (earliest (timers p)); [|reflexivity].
    by destruct (_ <=? _).
Qed.

(** *** Start-up *)

(** Claim C9: as long as [app.prepare()] has not settled, nothing listens,
    no connection is open or can be opened and no request is handled; and
    if it settles with a failure the process logs it and exits at once
    with status 1, never having bound a socket, and nothing runs
    afterwards (no second attempt). *)
Theorem C9_prepare_first (p : process) :
  reachable' p -> prepared p = false ->
  (listening p = None /\ connections p = 0 /\ executing p = [] /\
   served p = [] /\ step' p Connect = p /\
   (forall req, step' p (Incoming req) = p)) /\
  (status p = None ->
   forall err bf,
     let p' := step' p (PrepareSettled (Some err) bf) in
     status p' = Some (Exited 1) /\ listening p' = None /\
     clock p' = clock p /\
     console p' = (console p ++ [Err ("Error starting server: " +:+ err)])%list /\
     forall evs, run' p' evs = p').
Proof.
  intros Hreach Hp.
  destruct (inv_before_prepare _ _ (reachable_invariant _ Hreach) Hp)
    as (_ & Hl & Hc & Hex & Hsv & _).
  split.
  - repeat split; try done.
    + unfold step. rewrite Hl. by destruct (status p).
    + intros req. unfold step. rewrite Hc. by destruct (status p).
  - intros Hst err bf p'. subst p'. unfold step. rewrite Hst, Hp. simpl.
    repeat split; try done.
    intros evs. by apply run_ended.
Qed.

(** *** Requests *)


(** Claim C8 (as amended): the handler keeps no count of its own.  The
    count that draining waits on is the server's count of open
    connections: it is never negative, it goes up by one when a connection
    is accepted and down by one when a connection ends, and it is left as
    it is when a request starts being handled and when its handling
    finishes, by success or by failure, as by every other event. *)
Theorem C8_connection_count (p : process) :
  reachable' p ->
  0 <= connections p /\
  (forall req, connections (step' p (Incoming req)) = connections p /\
     (status p = None -> 0 < connections p ->
      executing (step' p (Incoming req)) = (executing p ++ [req])%list)) /\
  (forall i, connections (step' p (DelegateSettled i)) = connections p /\
     (status p = None -> is_Some (executing p !! i) ->
      executing (step' p (DelegateSettled i)) = delete i (executing p))) /\
  (forall ev, ev <> Connect -> ev <> Disconnect ->
     connections (step' p ev) = connections p) /\
  (status p = None -> is_Some (listening p) ->
   connections (step' p Connect) = connections p + 1) /\
  (status p = None -> 0 < connections p ->
   connections (step' p Disconnect) = connections p - 1).
Proof.
  intros Hreach.
  pose proof (inv_count _ _ (reachable_invariant _ Hreach)) as Hc.
  split; [exact Hc|]. split; [|split; [|split; [|split]]].
  - intros req. split; [by apply step_connections|].
    intros Hst Hpos. unfold step. rewrite Hst.
    apply Z.ltb_lt in Hpos. by rewrite Hpos.
  - intros i. split; [by apply step_connections|].
    intros Hst [req Hi]. rewrite (step_settled p i req Hst Hi).
    rewrite finish_request_eq. by destruct (Handler.unhandled _).
  - apply step_connections.
  - intros Hst [a Hl]. unfold step. by rewrite Hst, Hl.
  - intros Hst Hpos. unfold step. rewrite Hst.
    pose proof Hpos as Hpos'. apply Z.ltb_lt in Hpos'. rewrite Hpos'.
    by destruct (emitCloseIfDrained_frame
                   (set_connections (connections p - 1) p) Hst) as (_ & -> & _).
Qed.

(** *** Shutdown *)

Lemma draining_fields (p : process) :
  shutdownState p = Draining <->
  status p = None /\ listening p = None /\ prepared p = true.
Proof.
  unfold shutdownState.
  destruct (status p), (listening p), (prepared p); split;
    intros H; try discriminate; try done; destruct H as (? & ? & ?); done.
Qed.

Lemma running_fields (p : process) :
  shutdownState p = Running <-> status p = None /\ is_Some (listening p).
Proof.
  unfold shutdownState.
  destruct (status p), (listening p), (prepared p); split;
    intros H; try discriminate; try done;
    try (split; [done | eauto]); destruct H as (? & [? ?]); done.
Qed.

(** What a reachable process looks like while it serves. *)
Lemma running_state (p : process) :
  reachable' p -> shutdownState p = Running ->
  status p = None /\ sigHandlers p = true /\ prepared p = true /\
  closeListeners p = 0%nat /\ timers p = [].
Proof.
  intros Hreach Hrun. apply running_fields in Hrun as [Hst Hl].
  pose proof (reachable_invariant _ Hreach) as Hinv.
  assert (prepared p = true) as Hp.
  { destruct (prepared p) eqn:Hp; [done|].
    destruct (inv_before_prepare _ _ Hinv Hp) as (_ & Hl' & _).
    rewrite Hl' in Hl. by destruct Hl. }
  destruct (inv_running _ _ Hinv Hst Hl) as [Hcl Htm].
  repeat split; try done. by apply (inv_handlers _ _ Hinv).
Qed.

(** What a reachable process looks like while it drains. *)
Lemma draining_state (p : process) :
  reachable' p -> shutdownState p = Draining ->
  status p = None /\ sigHandlers p = true /\ listening p = None /\
  0 < connections p /\ closeListeners p <> 0%nat /\
  exists D, earliest (timers p) = Some D /\ clock p < D <= clock p + 10000.
Proof.
  intros Hreach Hdr. apply draining_fields in Hdr as (Hst & Hl & Hp).
  pose proof (reachable_invariant _ Hreach) as Hinv.
  destruct (inv_draining _ _ Hinv Hst Hp Hl) as (Hc & Hcl & Htm).
  repeat split; try done; [by apply (inv_handlers _ _ Hinv)|].
  destruct (earliest (timers p)) as [D|] eqn:He;
    [|by apply earliest_None in He].
  exists D. split; [done|].
  apply earliest_elem in He.
  pose proof (inv_future _ _ Hinv Hst) as Hf.
  pose proof (inv_recent _ _ Hinv) as Hn.
  rewrite Forall_forall in Hf, Hn. split; [by apply Hf | by apply Hn].
Qed.

(** Claim C6 (as amended): while draining, when the last open connection
    ends before any grace timer has fired, the close callback logs "Server
    closed" and the process exits with status 0 at that instant, ahead of
    every pending deadline.  The timers are not cancelled, they are still
    pending at the exit; but no timer fires afterwards, whatever happens.
    A signal that finds no open connection at all leads to the same exit
    within the same turn.  What counts is the server's count of open
    connections, not the number of requests being handled. *)
Theorem C6_drained_exit (p : process) :
  reachable' p ->
  (shutdownState p = Draining -> connections p = 1 ->
   let p' := step' p Disconnect in
   status p' = Some (Exited 0) /\ shutdownState p' = Terminated /\
   clock p' = clock p /\
   console p' = (console p ++ [Out "Server closed"])%list /\
   timers p' = timers p /\ timers p' <> [] /\
   Forall (fun t => clock p' < t) (timers p') /\
   forall evs, run' p' evs = p') /\
  (shutdownState p = Running -> connections p = 0 ->
   forall sig,
     let p' := step' p (Signal sig) in
     status p' = Some (Exited 0) /\ shutdownState p' = Terminated /\
     clock p' = clock p /\
     console p' = (console p ++ [Out (signal_name sig +:+ " received: closing server");
                                 Out "Server closed"])%list /\
     timers p' = [clock p + 10000] /\
     forall evs, run' p' evs = p').
Proof.
  intros Hreach. split.
  - intros Hdr Hone p'.
    destruct (draining_state p Hreach Hdr)
      as (Hst & _ & Hl & _ & Hcl & D & HeD & _).
    pose proof (inv_future _ _ (reachable_invariant _ Hreach) Hst) as Hf.
    assert (p' = emitCloseIfDrained (set_connections 0 p)) as Hp'.
    { subst p'. unfold step. rewrite Hst, Hone. reflexivity. }
    destruct (emitCloseIfDrained_drained (set_connections 0 p))
      as [Hs Hcon]; try done.
    destruct (emitCloseIfDrained_frame (set_connections 0 p) Hst)
      as (Hck & _ & _ & _ & _ & Htm & _).
    rewrite Hp'. repeat split; try done.
    + unfold shutdownState. by rewrite Hs.
    + rewrite Htm. simpl. intros Hnil. rewrite Hnil in HeD. discriminate.
    + rewrite Htm, Hck. exact Hf.
    + intros evs. apply run_ended. by rewrite Hs.
  - intros Hrun Hzero sig p'.
    destruct (running_state p Hreach Hrun) as (Hst & Hsig & _ & _ & Htm).
    assert (p' = emitCloseIfDrained (shutdown sig p)) as Hp'.
    { subst p'. by apply step_signal. }
    destruct (emitCloseIfDrained_drained (shutdown sig p))
      as [Hs Hcon]; try done.
    destruct (emitCloseIfDrained_frame (shutdown sig p) Hst)
      as (Hck & _ & _ & _ & _ & Htm' & _).
    rewrite Hp'. repeat split; try done.
    + unfold shutdownState. by rewrite Hs.
    + rewrite Hcon. simpl. by rewrite <- app_assoc.
    + rewrite Htm'. simpl. by rewrite Htm.
    + intros evs. apply run_ended. by rewrite Hs.
Qed.

(** Only a signal sets a timer and only the passing of time moves the
    clock. *)
Lemma step_timers_clock (p : process) (ev : event) :
  (forall sig, ev <> Signal sig) -> (forall d, ev <> Elapse d) ->
  timers (step' p ev) = timers p /\ clock (step' p ev) = clock p.
Proof.
  intros H1 H2. unfold step.
  destruct (status p) eqn:Hst; [done|].
  destruct ev as [failure bf | | req | i | | sig | d].
  - destruct (prepared p); [done|].
    destruct failure; [done|]. unfold startServer.
    by destruct (valid_port _), bf.
  - by destruct (listening p).
  - by destruct (0 <? connections p).
  - destruct (executing p !! i); [|done]. rewrite finish_request_eq.
    by destruct (Handler.unhandled _).
  - destruct (0 <? connections p); [|done].
    by destruct (emitCloseIfDrained_frame
                   (set_connections (connections p - 1) p) Hst)
      as (-> & _ & _ & _ & _ & -> & _).
  - by destruct (H1 sig).
  - by destruct (H2 d).
Qed.

Lemma step_grace_pending (c0 D : Z) (q : process) (ev : event) :
  D <= c0 + 10000 ->
  grace_pending c0 D q -> grace_pending c0 D (step' q ev).
Proof.
  intros HD Hq Hst'.
  destruct (status q) eqn:Hst.
  { rewrite step_ended in Hst' by congruence. congruence. }
  destruct (Hq Hst) as (He & Hlo & Hhi).
  destruct ev as [failure bf | | req | i | | sig | d];
    try (by edestruct (step_timers_clock q) as [-> ->]).
  - (* Signal *)
    destruct (sigHandlers q) eqn:Hsig.
    + rewrite step_signal in * by done.
      destruct (emitCloseIfDrained_frame (shutdown sig q) Hst)
        as (-> & _ & _ & _ & _ & -> & _).
      simpl. split; [|done]. apply earliest_snoc; [done | lia].
    + unfold step in Hst'. rewrite Hst, Hsig in Hst'. discriminate.
  - (* Elapse *)
    unfold step in *. rewrite Hst in *.
    destruct (d <? 0) eqn:Hd; [done|]. apply Z.ltb_ge in Hd.
    rewrite He in *.
    destruct (D <=? clock q + d) eqn:Hle; [discriminate|].
    apply Z.leb_gt in Hle. simpl. repeat split; [done | lia | lia].
Qed.

Lemma run_grace_pending (c0 D : Z) (q : process) (evs : list event) :
  D <= c0 + 10000 ->
  grace_pending c0 D q -> grace_pending c0 D (run' q evs).
Proof.
  intros HD. revert q.
  induction evs as [|ev evs IH]; intros q Hq; [exact Hq|].
  apply IH. by apply step_grace_pending.
Qed.

(** The pending timer with the earliest deadline fires as soon as time
    reaches it: the process logs the forced shutdown and exits with
    status 1. *)
Lemma step_elapse_fires (q : process) (D d : Z) :
  status q = None -> earliest (timers q) = Some D ->
  clock q <= D <= clock q + d ->
  let q' := step' q (Elapse d) in
  status q' = Some (Exited 1) /\ clock q' = D /\
  console q' = (console q ++ [Err "Forced shutdown after timeout"])%list.
Proof.
  intros Hst He [Hlo Hhi] q'. subst q'. unfold step.
  rewrite Hst, He.
  destruct (d <? 0) eqn:Hd; [apply Z.ltb_lt in Hd; lia|].
  destruct (D <=? clock q + d) eqn:Hle; [|apply Z.leb_gt in Hle; lia].
  simpl. repeat split. lia.
Qed.


(** *** A repeated signal *)

(** Claim C1 (as amended): a second signal received while draining runs
    [shutdown] again: it logs the signal, gives [server.close] one more
    callback and sets one more timer of 10 000 ms.  The first timer is
    neither cancelled nor restarted: the earliest pending deadline stays
    what it was, and if the process is still alive when time reaches that
    deadline it is forced out then, with status 1. *)
Theorem C1_second_signal (p : process) (sig : signal) :
  reachable' p -> shutdownState p = Draining ->
  let p' := step' p (Signal sig) in
  console p' = (console p ++ [Out (signal_name sig +:+ " received: closing server")])%list /\
  closeListeners p' = S (closeListeners p) /\
  timers p' = (timers p ++ [clock p + 10000])%list /\
  exists D,
    earliest (timers p) = Some D /\ earliest (timers p') = Some D /\
    clock p < D <= clock p + 10000 /\
    forall evs d,
      let q := run' p' evs in
      status q = None -> D <= clock q + d ->
      status (step' q (Elapse d)) = Some (Exited 1) /\
      clock (step' q (Elapse d)) = D /\
      console (step' q (Elapse d))
      = (console q ++ [Err "Forced shutdown after timeout"])%list.
Proof.
  intros Hreach Hdr p'.
  destruct (draining_state p Hreach Hdr)
    as (Hst & Hsig & Hl & Hc & Hcl & D & He & HD).
  assert (p' = shutdown sig p) as Hp'.
  { subst p'. rewrite step_signal by done.
    apply emitCloseIfDrained_busy. simpl. lia. }
  clearbody p'. subst p'.
  assert (earliest (timers (shutdown sig p)) = Some D) as He'.
  { simpl. apply earliest_snoc; [done | lia]. }
  repeat split; try done.
  exists D. split; [done|]. split; [done|]. split; [lia|].
  intros evs d q Hq Hd. subst q.
  assert (grace_pending (clock p) D (shutdown sig p)) as Hg
    by (intros _; repeat split; [done | simpl; lia | simpl; lia]).
  apply (run_grace_pending _ _ _ evs) in Hg; [|lia].
  destruct (Hg Hq) as (Heq & Hlo & Hhi).
  destruct (step_elapse_fires _ D d Hq Heq) as (H1 & H2 & H3); [lia|].
  done.
Qed.

End ScriptFacts.

(** ** Configuration and start-up together *)

Lemma demo_reachable (env : environment) (evs : list event) :
  reachable env demo_parse demo_handle (demo_run env evs).
Proof. apply reachable_run. constructor. Qed.

(** Claim C2 (as amended): in development mode the host name given to the
    rendering engine is "localhost" whatever HOSTNAME is; the listening
    socket, in every mode, is bound to HOSTNAME when that is set and not
    empty and to "0.0.0.0" otherwise. *)
Theorem C2_development_hostname (env : environment) :
  (Config.dev env = true ->
   Config.opt_hostname (Config.app_options env) = "localhost") /\
  forall (parsedUrl : Type) (parse : string -> bool -> error + parsedUrl)
         (handle : request -> response -> parsedUrl -> completion * response)
         (p : process) (n : Z) (h : string),
    reachable env parse handle p -> listening p = Some (n, h) ->
    h = js_or (env !! "HOSTNAME") "0.0.0.0".
Proof.
  split.
  - intros Hdev. unfold Config.app_options. simpl. by rewrite Hdev.
  - intros parsedUrl parse handle p n h Hreach Hl.
    apply reachable_invariant in Hreach.
    by destruct (inv_address _ _ Hreach n h Hl) as [-> _].
Qed.

Lemma C2_witness :
  Config.opt_hostname (Config.app_options {[ "HOSTNAME" := "example.org" ]})
  = "localhost" /\
  js_or (({[ "NODE_ENV" := "production"; "HOSTNAME" := "example.org" ]} : environment)
           !! "HOSTNAME") "0.0.0.0" = "example.org".
Proof.
  split.
  - exact (proj1 (C2_development_hostname {[ "HOSTNAME" := "example.org" ]})
             eq_refl).
  - symmetry.
    assert (listening
              (demo_run {[ "NODE_ENV" := "production"; "HOSTNAME" := "example.org" ]}
                 [PrepareSettled None None])
            = Some (3000, "example.org")) as Hl by reflexivity.
    exact (proj2 (C2_development_hostname
                    {[ "NODE_ENV" := "production"; "HOSTNAME" := "example.org" ]})
             string demo_parse demo_handle _ 3000 "example.org"
             (demo_reachable _ _) Hl).
Defined.

(** Claim C2 fails as stated: with NODE_ENV absent (development mode) and
    HOSTNAME absent the listening socket is bound to "0.0.0.0", and with
    HOSTNAME set it is bound to that host; in neither case to
    "localhost". *)
Lemma C2_development_binds_hostname :
  Config.mode_of ∅ = Config.development /\
  listening (demo_run ∅ [PrepareSettled None None]) = Some (3000, "0.0.0.0") /\
  Config.mode_of {[ "HOSTNAME" := "example.org" ]} = Config.development /\
  listening (demo_run {[ "HOSTNAME" := "example.org" ]} [PrepareSettled None None])
  = Some (3000, "example.org") /\
  listening (demo_run ∅ [PrepareSettled None None]) <> Some (3000, "localhost").
Proof. repeat split; try reflexivity. discriminate. Qed.

(** Claim C4 (as amended): if PORT is present and [parseInt] reads from it
    an integer between 1 and 65535, that integer is the port; if PORT is
    absent the port is 3000.  Any other PORT is not refused when the
    configuration is resolved: the port is whatever [parseInt] yields.  Only
    when that is [NaN], infinite or outside 0..65535 does start-up fail, at
    the [listen] call once [prepare] has succeeded: the call throws, the
    process logs "Error starting server:" followed by the error thrown and
    exits with status 1 without a socket bound.  In the remaining cases the
    socket is bound to the resolved port. *)
Theorem C4_port_resolution (env : environment) :
  (forall s n, env !! "PORT" = Some s -> parseInt10 s = Num n ->
     1 <= n <= 65535 -> Config.port env = Num n) /\
  (env !! "PORT" = None -> Config.port env = Num 3000) /\
  (valid_port (Config.port env) = None <->
   Config.port env = NaN \/
   (exists negative, Config.port env = Infinity negative) \/
   exists n, Config.port env = Num n /\ (n < 0 \/ 65535 < n)) /\
  forall (parsedUrl : Type) (parse : string -> bool -> error + parsedUrl)
         (handle : request -> response -> parsedUrl -> completion * response)
         (p : process),
    reachable env parse handle p -> prepared p = false -> status p = None ->
    (valid_port (Config.port env) = None ->
     forall thrown : error,
       let p' := step env parse handle p (PrepareSettled None (Some thrown)) in
       status p' = Some (Exited 1) /\ listening p' = None /\
       console p'
       = (console p ++ [Err ("Error starting server: " +:+ thrown)])%list) /\
    (forall n, valid_port (Config.port env) = Some n ->
       let p' := step env parse handle p (PrepareSettled None None) in
       status p' = None /\ listening p' = Some (n, Config.hostname env)).
Proof.
  split; [|split; [|split]].
  - intros s n Hs Hparse _. unfold Config.port. rewrite Hs.
    rewrite js_or_nonempty by (by eapply parseInt10_Num_nonempty). done.
  - intros Hs. unfold Config.port. by rewrite Hs.
  - apply valid_port_None.
  - intros parsedUrl parse handle p Hreach Hp Hst.
    apply reachable_invariant in Hreach.
    destruct (inv_before_prepare _ _ Hreach Hp) as (_ & Hl & _).
    split.
    + intros Hbad thrown p'. subst p'. unfold step, startServer.
      rewrite Hst, Hp, Hbad. simpl. by rewrite Hl.
    + intros n Hok p'. subst p'. unfold step, startServer.
      rewrite Hst, Hp, Hok. by simpl.
Qed.

Lemma C4_witness :
  Config.port {[ "PORT" := "8080" ]} = Num 8080 /\
  Config.port ∅ = Num 3000 /\
  (let p' := demo_run {[ "PORT" := "70000" ]}
               [PrepareSettled None (Some "RangeError: options.port")] in
   status p' = Some (Exited 1) /\ listening p' = None /\
   console p' = [Err "Error starting server: RangeError: options.port"]) /\
  listening (demo_run {[ "PORT" := "8080" ]} [PrepareSettled None None])
  = Some (8080, "0.0.0.0").
Proof.
  split; [|split; [|split]].
  - apply (proj1 (C4_port_resolution {[ "PORT" := "8080" ]}) "8080" 8080);
      [reflexivity | reflexivity | lia].
  - apply (proj1 (proj2 (C4_port_resolution ∅))). reflexivity.
  - pose proof (proj2 (proj2 (proj2 (C4_port_resolution {[ "PORT" := "70000" ]})))
                  string demo_parse demo_handle init
                  (reach_init _ _ _) eq_refl eq_refl) as [H _].
    exact (H eq_refl "RangeError: options.port").
  - pose proof (proj2 (proj2 (proj2 (C4_port_resolution {[ "PORT" := "8080" ]})))
                  string demo_parse demo_handle init
                  (reach_init _ _ _) eq_refl eq_refl) as [_ H].
    exact (proj2 (H 8080 eq_refl)).
Defined.

(** Claim C4 fails as stated: a PORT that is present but holds no integer
    between 1 and 65535 need not be fatal.  The empty string resolves to
    3000, "0" resolves to 0, and "8080abc" resolves to 8080; in all three
    cases start-up goes through and the socket is bound. *)
Lemma C4_unparsable_port_not_fatal :
  ({[ "PORT" := "" ]} : environment) !! "PORT" = Some "" /\
  parseInt10 "" = NaN /\
  Config.port {[ "PORT" := "" ]} = Num 3000 /\
  status (demo_run {[ "PORT" := "" ]} [PrepareSettled None None]) = None /\
  listening (demo_run {[ "PORT" := "" ]} [PrepareSettled None None])
  = Some (3000, "0.0.0.0") /\
  Config.port {[ "PORT" := "0" ]} = Num 0 /\
  status (demo_run {[ "PORT" := "0" ]} [PrepareSettled None None]) = None /\
  listening (demo_run {[ "PORT" := "0" ]} [PrepareSettled None None])
  = Some (0, "0.0.0.0") /\
  listening (demo_run {[ "PORT" := "8080abc" ]} [PrepareSettled None None])
  = Some (8080, "0.0.0.0").
Proof. repeat split; reflexivity. Qed.

(** ** The claims on concrete runs *)


Lemma C9_witness :
  status (demo_step ∅ init (PrepareSettled (Some "no build") None))
  = Some (Exited 1) /\
  demo_step ∅ init Connect = init.
Proof.
  pose proof (C9_prepare_first ∅ demo_parse demo_handle init
                (reach_init _ _ _) eq_refl) as [H1 H2].
  split.
  - exact (proj1 (H2 eq_refl "no build" None)).
  - exact (proj1 (proj2 (proj2 (proj2 (proj2 H1))))).
Defined.



(** Claim C8 fails as stated: on a connection that stays open, the count is
    1 before the handler starts, 1 while it waits for the delegate and 1
    after it has finished; so it is not zero although no handler is
    executing. *)
Lemma C8_count_unchanged_by_handler :
  let p0 := demo_run ∅ [PrepareSettled None None; Connect] in
  let p1 := demo_step ∅ p0 (Incoming (GET "/")) in
  let p2 := demo_step ∅ p1 (DelegateSettled 0) in
  connections p0 = 1 /\ executing p0 = [] /\
  connections p1 = 1 /\ executing p1 = [GET "/"] /\
  connections p2 = 1 /\ executing p2 = [] /\
  ~ (connections p2 = 0 <-> executing p2 = []).
Proof.
  repeat split; try reflexivity.
  intros [_ H]. specialize (H eq_refl). discriminate H.
Qed.

Lemma C8_witness :
  connections (demo_step ∅ (demo_run ∅ [PrepareSettled None None; Connect])
                 (Incoming (GET "/"))) = 1 /\
  connections (demo_step ∅ (demo_run ∅ [PrepareSettled None None; Connect])
                 Disconnect) = 0.
Proof.
  pose proof (C8_connection_count ∅ demo_parse demo_handle
                (demo_run ∅ [PrepareSettled None None; Connect])
                (demo_reachable _ _)) as (_ & H1 & _ & _ & _ & H2).
  split.
  - exact (proj1 (H1 (GET "/"))).
  - apply H2; [reflexivity | reflexivity].
Defined.

Lemma C6_witness :
  shutdownState draining_demo = Draining /\
  status (demo_step ∅ draining_demo Disconnect) = Some (Exited 0) /\
  timers (demo_step ∅ draining_demo Disconnect) = [10000] /\
  demo_run ∅ [PrepareSettled None None; Connect; Signal SIGTERM; Elapse 500;
              Disconnect; Elapse 20000]
  = demo_step ∅ draining_demo Disconnect /\
  status (demo_run ∅ [PrepareSettled None None; Signal SIGINT])
  = Some (Exited 0).
Proof.
  pose proof (C6_drained_exit ∅ demo_parse demo_handle draining_demo
                (demo_reachable _ _)) as [H1 _].
  pose proof (C6_drained_exit ∅ demo_parse demo_handle
                (demo_run ∅ [PrepareSettled None None])
                (demo_reachable _ _)) as [_ H2].
  specialize (H1 eq_refl eq_refl). specialize (H2 eq_refl eq_refl SIGINT).
  split; [reflexivity|]. split; [exact (proj1 H1)|].
  split; [exact (proj1 (proj2 (proj2 (proj2 (proj2 H1)))))|].
  split; [|exact (proj1 H2)].
  destruct H1 as (_ & _ & _ & _ & _ & _ & _ & H1). exact (H1 [Elapse 20000]).
Defined.

(** Claim C6 fails as stated: a request was being handled when the signal
    came and is answered while draining, so that the number of requests in
    flight reaches zero long before the deadline; its connection stays
    open.  The process does not terminate then: it stays draining, and at
    the deadline the timer fires and the exit status is 1.  And where the
    process does exit with status 0, the timer has not been cancelled: it
    is still pending at the exit. *)
Lemma C6_no_request_in_flight_not_enough :
  let p := demo_run ∅ [PrepareSettled None None; Connect; Incoming (GET "/");
                       Signal SIGTERM; DelegateSettled 0] in
  executing p = [] /\ connections p = 1 /\ clock p = 0 /\ timers p = [10000] /\
  status p = None /\ shutdownState p = Draining /\
  status (demo_step ∅ p (Elapse 10000)) = Some (Exited 1) /\
  status (demo_step ∅ draining_demo Disconnect) = Some (Exited 0) /\
  timers (demo_step ∅ draining_demo Disconnect) = [10000].
Proof. repeat split; reflexivity. Qed.


(** Claim C1 fails as stated: the second signal is not a no-op.  It leaves
    a second close callback and a second timer behind, and a second line on
    the console. *)
Lemma C1_second_signal_not_noop :
  shutdownState draining_demo = Draining /\
  demo_step ∅ draining_demo (Signal SIGTERM) <> draining_demo /\
  closeListeners draining_demo = 1%nat /\
  closeListeners (demo_step ∅ draining_demo (Signal SIGTERM)) = 2%nat /\
  timers draining_demo = [10000] /\
  timers (demo_step ∅ draining_demo (Signal SIGTERM)) = [10000; 10500] /\
  console (demo_step ∅ draining_demo (Signal SIGTERM))
  = (console draining_demo ++ [Out "SIGTERM received: closing server"])%list.
Proof.
  repeat split; try reflexivity.
  intros H. apply (f_equal closeListeners) in H. discriminate H.
Qed.

Lemma C1_witness :
  closeListeners (demo_step ∅ draining_demo (Signal SIGINT)) = 2%nat /\
  timers (demo_step ∅ draining_demo (Signal SIGINT)) = [10000; 10500] /\
  status (run ∅ demo_parse demo_handle
            (demo_step ∅ draining_demo (Signal SIGINT)) [Elapse 9500])
  = Some (Exited 1).
Proof.
  pose proof (C1_second_signal ∅ demo_parse demo_handle draining_demo SIGINT
                (demo_reachable _ _) eq_refl)
    as (_ & H1 & H2 & D & HD & _ & _ & H3).
  assert (earliest (timers draining_demo) = Some 10000) as HD' by reflexivity.
  assert (D = 10000) as -> by congruence.
  split; [exact H1|]. split; [exact H2|].
  assert (10000 <= 500 + 9500) as Hle by lia.
  exact (proj1 (H3 [] 9500 eq_refl Hle)).
Defined.

(** ** More about the configuration *)

(** A PORT that starts with decimal digits resolves to the number those
    digits spell, whatever follows them, as long as that number is below
    2^53 (beyond, [parseInt] yields a double near it); [listen] accepts
    the resolved port exactly when the number spelled is at most 65535. *)
Theorem port_of_leading_digits (env : environment) (ds : list nat)
    (suffix : string) :
  Forall (fun d => (d < 10)%nat) ds -> ds <> [] ->
  match suffix with
  | String c _ => digit_of c = None
  | EmptyString => True
  end ->
  env !! "PORT" = Some (digits_string ds +:+ suffix) ->
  0 <= digits_value ds /\
  (digits_value ds < 2 ^ 53 -> Config.port env = Num (digits_value ds)) /\
  (digits_value ds <= 65535 ->
   valid_port (Config.port env) = Some (digits_value ds)) /\
  (65535 < digits_value ds -> valid_port (Config.port env) = None).
Proof.
  intros Hds Hne Hsuf Hport.
  pose proof (digits_value_nonneg ds) as Hpos.
  assert (Config.port env
          = if 2 ^ 1024 <=? round_double (digits_value ds) then Infinity false
            else Num (round_double (digits_value ds))) as Hp.
  { unfold Config.port. rewrite Hport.
    rewrite js_or_nonempty; [by apply parseInt10_digits_then|].
    destruct ds as [|d ds]; [congruence | discriminate]. }
  assert (digits_value ds < 2 ^ 53 -> Config.port env = Num (digits_value ds))
    as Hsmall.
  { intros Hlt. rewrite Hp, (round_double_small _ Hlt).
    destruct (2 ^ 1024 <=? digits_value ds) eqn:Hbig; [|reflexivity].
    apply Z.leb_le in Hbig.
    assert (2 ^ 53 <= 2 ^ 1024) by (apply Z.pow_le_mono_r; lia). lia. }
  assert (65535 < 2 ^ 53) as H16 by reflexivity.
  split; [done|]. split; [done|]. split.
  - intros Hle. rewrite Hsmall by lia. apply valid_port_spec. split; [done | lia].
  - intros Hgt. apply valid_port_None.
    destruct (Z.lt_ge_cases (digits_value ds) (2 ^ 53)) as [Hlt | Hge].
    + right; right. exists (digits_value ds). split; [by apply Hsmall | lia].
    + rewrite Hp. pose proof (round_double_large _ Hge) as Hr.
      destruct (2 ^ 1024 <=? round_double (digits_value ds)).
      * right; left. by exists false.
      * right; right. exists (round_double (digits_value ds)). split; [done | lia].
Qed.

Lemma port_of_leading_digits_witness :
  Config.port {[ "PORT" := "8080abc" ]} = Num 8080 /\
  valid_port (Config.port {[ "PORT" := "8080abc" ]}) = Some 8080.
Proof.
  assert (Forall (fun d => (d < 10)%nat) [8; 0; 8; 0]%nat) as Hds
    by (repeat constructor; lia).
  assert ([8; 0; 8; 0]%nat <> []) as Hne by discriminate.
  assert (digits_value [8; 0; 8; 0]%nat < 2 ^ 53) as Hlt by reflexivity.
  assert (digits_value [8; 0; 8; 0]%nat <= 65535) as Hle
    by (intros H; discriminate H).
  pose proof (port_of_leading_digits {[ "PORT" := "8080abc" ]}
                [8; 0; 8; 0]%nat "abc" Hds Hne eq_refl eq_refl)
    as (_ & H1 & H2 & _).
  split; [exact (H1 Hlt) | exact (H2 Hle)].
Defined.

(** [parseInt] on some border cases: a no-break space (U+00A0, the bytes
    C2 A0) and a byte-order mark before the digits are skipped like a
    blank; digits beyond 2^53 give the nearest double, ties to even; a
    sign is read, and nothing else before the digits is. *)
Example parseInt10_border_cases :
  parseInt10 (String (ascii_of_nat 194) (String (ascii_of_nat 160) "8080"))
  = Num 8080 /\
  parseInt10 (String (ascii_of_nat 239) (String (ascii_of_nat 187)
                (String (ascii_of_nat 191) " 8080")))
  = Num 8080 /\
  parseInt10 "9007199254740993" = Num 9007199254740992 /\
  parseInt10 "9007199254740995" = Num 9007199254740996 /\
  parseInt10 "-80" = Num (-80) /\
  parseInt10 "0x50" = Num 0 /\
  parseInt10 "port 80" = NaN.
Proof. repeat split; reflexivity. Qed.

(** In production mode the rendering engine and the listening socket get
    the same host: HOSTNAME when it is set and not empty, "0.0.0.0" when it
    is absent or empty. *)
Theorem production_hosts_agree (env : environment) :
  Config.dev env = false ->
  Config.opt_hostname (Config.app_options env) = Config.hostname env /\
  (env !! "HOSTNAME" = None \/ env !! "HOSTNAME" = Some "" ->
   Config.hostname env = "0.0.0.0") /\
  (forall s, env !! "HOSTNAME" = Some s -> s <> "" -> Config.hostname env = s) /\
  forall (parsedUrl : Type) (parse : string -> bool -> error + parsedUrl)
         (handle : request -> response -> parsedUrl -> completion * response)
         (p : process) (n : Z) (h : string),
    reachable env parse handle p -> listening p = Some (n, h) ->
    h = Config.opt_hostname (Config.app_options env).
Proof.
  intros Hdev.
  assert (Config.opt_hostname (Config.app_options env) = Config.hostname env) as Ho.
  { unfold Config.app_options. simpl. by rewrite Hdev. }
  split; [done|]. split; [|split].
  - unfold Config.hostname. by intros [-> | ->].
  - intros s Hs Hne. unfold Config.hostname. rewrite Hs.
    by apply js_or_nonempty.
  - intros parsedUrl parse handle p n h Hreach Hl. rewrite Ho.
    apply reachable_invariant in Hreach.
    by destruct (inv_address _ _ Hreach n h Hl) as [-> _].
Qed.

Lemma production_hosts_agree_witness :
  Config.opt_hostname (Config.app_options {[ "NODE_ENV" := "production" ]})
  = "0.0.0.0" /\
  listening (demo_run {[ "NODE_ENV" := "production" ]} [PrepareSettled None None])
  = Some (3000, "0.0.0.0").
Proof.
  pose proof (production_hosts_agree {[ "NODE_ENV" := "production" ]} eq_refl)
    as (H1 & H2 & _ & H3).
  split.
  - rewrite H1. apply H2. left. reflexivity.
  - reflexivity.
Defined.

(** ** More about the event loop *)

Section MoreScriptFacts.

Variable env : environment.
Context {parsedUrl : Type}.
Variable parse : string -> bool -> error + parsedUrl.
Variable handle : request -> response -> parsedUrl -> completion * response.

Local Abbreviation step' := (step env parse handle).
Local Abbreviation run' := (run env parse handle).
Local Abbreviation reachable' := (reachable env parse handle).

(** *** Requests *)

(** A request whose delegate call is fulfilled is answered with exactly
    what the delegate put into the response; the handler adds nothing to it
    and writes nothing to the console. *)
Theorem success_is_verbatim (p : process) (i : nat) (req : request)
    (pu : parsedUrl) (r : response) :
  status p = None ->
  executing p !! i = Some req ->
  parse (url req) true = inr pu ->
  handle req fresh_response pu = (Fulfilled, r) ->
  let p' := step' p (DelegateSettled i) in
  served p' = (served p ++ [(req, r)])%list /\
  console p' = console p /\
  executing p' = delete i (executing p) /\
  status p' = None.
Proof.
  intros Hst Hi Hp Hh p'. subst p'.
  rewrite (step_settled _ _ _ p i req Hst Hi), finish_request_eq.
  rewrite (handle_request_success parse handle req pu r Hp Hh). simpl.
  by rewrite app_nil_r.
Qed.


(** *** How the process ends *)

Lemma emitCloseIfDrained_status (p : process) :
  status p = None ->
  status (emitCloseIfDrained p) = None \/
  (status (emitCloseIfDrained p) = Some (Exited 0) /\
   listening p = None /\ connections p = 0 /\
   console (emitCloseIfDrained p) = (console p ++ [Out "Server closed"])%list).
Proof.
  intros Hst. unfold emitCloseIfDrained.
  destruct (listening p) eqn:Hl; [by left|].
  destruct (connections p =? 0) eqn:Hz; [|by left].
  apply Z.eqb_eq in Hz.
  destruct (decide (closeListeners p = 0%nat)) as [Hn | Hn].
  - left. by rewrite emit_close_none.
  - right. by rewrite emit_close_first.
Qed.

(** The process ends with status 0 in one way only: by the close callback,
    after a signal was handled, with the listening socket closed and no
    connection left; "Server closed" is then the last line on the console.
    Every other exit of the script has status 1. *)
Theorem exit_status_meaning (p : process) (code : Z) :
  reachable' p -> status p = Some (Exited code) ->
  (code = 0 /\ sigHandlers p = true /\ listening p = None /\
   connections p = 0 /\ last (console p) = Some (Out "Server closed")) \/
  code = 1.
Proof.
  intros Hreach. revert code.
  induction Hreach as [|p ev Hreach IH]; intros code Hcode; [discriminate|].
  destruct (status p) eqn:Hst.
  { rewrite step_ended in * by congruence. apply IH. congruence. }
  pose proof (reachable_invariant _ _ _ _ Hreach) as Hinv.
  assert (0 < connections p -> sigHandlers p = true) as Hopen.
  { intros Hpos. apply (inv_handlers _ _ Hinv Hst).
    destruct (prepared p) eqn:Hp; [done|].
    destruct (inv_before_prepare _ _ Hinv Hp) as (_ & _ & ? & _). lia. }
  unfold step in *. rewrite Hst in *.
  destruct ev as [failure bf | | req | i | | sig | d].
  - destruct (prepared p); [congruence|].
    destruct failure; [right; simpl in Hcode; congruence|].
    unfold startServer in *.
    destruct (valid_port _), bf; simpl in Hcode; try congruence;
      right; congruence.
  - destruct (listening p); simpl in Hcode; congruence.
  - destruct (0 <? connections p); simpl in Hcode; congruence.
  - destruct (executing p !! i); [|congruence].
    rewrite finish_request_eq in Hcode.
    destruct (Handler.unhandled _); simpl in Hcode; [right|]; congruence.
  - destruct (0 <? connections p) eqn:Hpos; [|congruence].
    apply Z.ltb_lt in Hpos.
    destruct (emitCloseIfDrained_frame
                (set_connections (connections p - 1) p) Hst)
      as (_ & Hc' & Hl' & _ & _ & _ & _ & Hs').
    destruct (emitCloseIfDrained_status
                (set_connections (connections p - 1) p) Hst)
      as [Halive | (Hzero & Hl & Hc & Hcon)]; [congruence|].
    left. rewrite Hc', Hl', Hs', Hcon, last_snoc.
    repeat split; try done; [congruence | by apply Hopen].
  - destruct (sigHandlers p) eqn:Hsig; [|simpl in Hcode; congruence].
    destruct (emitCloseIfDrained_frame (shutdown sig p) Hst)
      as (_ & Hc' & Hl' & _ & _ & _ & _ & Hs').
    destruct (emitCloseIfDrained_status (shutdown sig p) Hst)
      as [Halive | (Hzero & Hl & Hc & Hcon)]; [congruence|].
    left. rewrite Hc', Hl', Hs', Hcon, last_snoc.
    repeat split; try done. congruence.
  - destruct (d <? 0); [congruence|].
    destruct (earliest (timers p)); [|simpl in Hcode; congruence].
    destruct (_ <=? _); simpl in Hcode; [right|]; congruence.
Qed.

(** Before [app.prepare()] has settled the script listens for no signal: a
    signal then kills the process as it is, without [shutdown] running (no
    line logged, no timer set, no exit status of the script's own). *)
Theorem signal_before_prepare (p : process) (sig : signal) :
  reachable' p -> prepared p = false -> status p = None ->
  let p' := step' p (Signal sig) in
  status p' = Some (Killed sig) /\ console p' = console p /\
  timers p' = [] /\ closeListeners p' = 0%nat.
Proof.
  intros Hreach Hp Hst p'. subst p'.
  destruct (inv_before_prepare _ _ (reachable_invariant _ _ _ _ Hreach) Hp)
    as (Hsig & _ & _ & _ & _ & Htm & Hcl).
  unfold step. rewrite Hst, Hsig. simpl. by rewrite Htm, Hcl.
Qed.

(** *** The grace period as a bound *)

Lemma step_alive_clock (p : process) (ev : event) :
  status (step' p ev) = None ->
  clock (step' p ev) = clock p + elapsed [ev].
Proof.
  intros Halive.
  destruct (status p) eqn:Hst.
  { rewrite step_ended in Halive by congruence. congruence. }
  destruct ev as [failure bf | | req | i | | sig | d];
    try (cbn [elapsed]; rewrite Z.add_0_r;
         by edestruct (step_timers_clock env parse handle p) as [_ ->]).
  - (* Signal *)
    cbn [elapsed]. rewrite Z.add_0_r.
    unfold step in *. rewrite Hst in *.
    destruct (sigHandlers p); [|reflexivity].
    by destruct (emitCloseIfDrained_frame (shutdown sig p) Hst) as (-> & _).
  - (* Elapse *)
    cbn [elapsed]. unfold step in *. rewrite Hst in *.
    destruct (d <? 0) eqn:Hd.
    + apply Z.ltb_lt in Hd. lia.
    + apply Z.ltb_ge in Hd.
      destruct (earliest (timers p)) as [t|]; [|simpl; lia].
      destruct (t <=? clock p + d); [discriminate | simpl; lia].
Qed.

(** While the process lives its clock shows exactly the time that has
    passed. *)
Lemma run_alive_clock (p : process) (evs : list event) :
  status (run' p evs) = None ->
  clock (run' p evs) = clock p + elapsed evs.
Proof.
  revert p. induction evs as [|ev evs IH]; intros p Halive.
  - simpl. lia.
  - cbn [run fold_left] in *. fold (run' (step' p ev) evs) in *.
    assert (status (step' p ev) = None) as Hst.
    { destruct (status (step' p ev)) eqn:Hst; [|done].
      rewrite run_ended in Halive by congruence. congruence. }
    rewrite (IH _ Halive), (step_alive_clock p ev Hst).
    destruct ev; cbn [elapsed]; lia.
Qed.

(** Shutdown is bounded: once a signal has been received while serving, the
    process lives for less than 10 000 ms more.  As long as it lives its
    clock is short of the deadline, and after events during which 10 000 ms
    or more have passed it has ended, whatever the connections and the
    delegate do. *)
Theorem shutdown_is_bounded (p : process) (sig : signal) (evs : list event) :
  reachable' p -> shutdownState p = Running ->
  let q := run' (step' p (Signal sig)) evs in
  (status q = None -> clock q < clock p + 10000 /\ elapsed evs < 10000) /\
  (10000 <= elapsed evs -> status q <> None).
Proof.
  intros Hreach Hrun q.
  assert (status q = None -> clock q < clock p + 10000 /\ elapsed evs < 10000)
    as Hbound.
  { intros Hq. subst q.
    destruct (running_state env parse handle p Hreach Hrun)
      as (Hst & Hsig & _ & _ & Htm).
    assert (status (step' p (Signal sig)) = None) as Hst1.
    { destruct (status (step' p (Signal sig))) eqn:H1; [|done].
      rewrite run_ended in Hq by congruence. congruence. }
    pose proof (run_alive_clock _ _ Hq) as Hclock.
    rewrite (step_alive_clock _ _ Hst1) in Hclock. cbn [elapsed] in Hclock.
    rewrite step_signal in * by done.
    assert (connections p <> 0) as Hbusy.
    { intros Hz.
      destruct (emitCloseIfDrained_drained (shutdown sig p)) as [Hs _];
        try done. congruence. }
    rewrite emitCloseIfDrained_busy in * by done.
    assert (grace_pending (clock p) (clock p + 10000) (shutdown sig p)) as Hg.
    { intros _. simpl. rewrite Htm. simpl. repeat split; lia. }
    apply (run_grace_pending env parse handle _ _ _ evs) in Hg; [|lia].
    destruct (Hg Hq) as (_ & _ & Hlt). lia. }
  split; [exact Hbound|].
  intros Hlong Hq. destruct (Hbound Hq). lia.
Qed.

(** *** The order of the coordinator states *)

Lemma emitCloseIfDrained_rank (p : process) :
  status p = None ->
  (rank (shutdownState p) <= rank (shutdownState (emitCloseIfDrained p)))%nat.
Proof.
  intros Hst.
  destruct (emitCloseIfDrained_frame p Hst)
    as (_ & _ & Hl & _ & _ & _ & Hp & _).
  unfold shutdownState. rewrite Hl, Hp, Hst.
  destruct (status (emitCloseIfDrained p)); [|done].
  destruct (listening p); [simpl; lia|]. destruct (prepared p); simpl; lia.
Qed.

(** The process moves through its states in one direction only: from
    starting to serving to draining to ended, possibly skipping some, never
    back; and once ended it stays as it is. *)
Theorem shutdown_state_monotone (p : process) (ev : event) :
  reachable' p ->
  (rank (shutdownState p) <= rank (shutdownState (step' p ev)))%nat /\
  (shutdownState p = Terminated -> step' p ev = p).
Proof.
  intros Hreach. split.
  2: { unfold shutdownState. intros H. apply step_ended.
       destruct (status p); [done|].
       destruct (listening p); [done|]. by destruct (prepared p). }
  pose proof (reachable_invariant _ _ _ _ Hreach) as Hinv.
  destruct (status p) eqn:Hst.
  { by rewrite step_ended by congruence. }
  assert (forall q, status q <> None ->
            (rank (shutdownState p) <= rank (shutdownState q))%nat) as Hend.
  { intros q Hq. unfold shutdownState at 2.
    destruct (status q); [|done]. destruct (shutdownState p); simpl; lia. }
  unfold step. rewrite Hst.
  destruct ev as [failure bf | | req | i | | sig | d].
  - destruct (prepared p) eqn:Hp; [done|].
    destruct (inv_before_prepare _ _ Hinv Hp) as (_ & Hl & _).
    unfold shutdownState at 1. rewrite Hst, Hl, Hp. simpl. lia.
  - destruct (listening p) eqn:Hl; [|done].
    unfold shutdownState. simpl. by rewrite Hst, Hl.
  - destruct (0 <? connections p); [|done]. by unfold shutdownState.
  - destruct (executing p !! i); [|done]. rewrite finish_request_eq.
    destruct (Handler.unhandled _); [by apply Hend | by unfold shutdownState].
  - destruct (0 <? connections p); [|done].
    by apply (emitCloseIfDrained_rank (set_connections (connections p - 1) p)).
  - destruct (sigHandlers p) eqn:Hsig; [|by apply Hend].
    etrans; [|by apply emitCloseIfDrained_rank].
    assert (prepared p = true) as Hp.
    { destruct (prepared p) eqn:Hp; [done|].
      destruct (inv_before_prepare _ _ Hinv Hp) as (? & _). congruence. }
    unfold shutdownState. simpl. rewrite Hst, Hp.
    destruct (listening p); simpl; lia.
  - destruct (d <? 0); [done|].
    destruct (earliest (timers p)); [|by unfold shutdownState].
    destruct (_ <=? _); [by apply Hend | by unfold shutdownState].
Qed.

(** *** Callbacks and timers left behind *)



(** *** Draining, seen from the clients *)

(** While draining, no new connection gets in, but a request that arrives
    on a connection still open is taken up like any other: the handler has
    no check of its own for a shutdown in progress. *)
Theorem draining_serves_open_connections (p : process) :
  reachable' p -> shutdownState p = Draining ->
  step' p Connect = p /\
  forall req,
    let p' := step' p (Incoming req) in
    executing p' = (executing p ++ [req])%list /\
    connections p' = connections p /\
    shutdownState p' = Draining.
Proof.
  intros Hreach Hdr.
  destruct (draining_state env parse handle p Hreach Hdr)
    as (Hst & _ & Hl & Hpos & _).
  apply draining_fields in Hdr as (_ & _ & Hp).
  split.
  - unfold step. by rewrite Hst, Hl.
  - intros req p'. subst p'. unfold step. rewrite Hst.
    apply Z.ltb_lt in Hpos. rewrite Hpos. simpl.
    repeat split. apply draining_fields. by simpl.
Qed.


End MoreScriptFacts.

(** *** Concrete runs *)

Lemma success_is_verbatim_witness :
  served (demo_run ∅ [PrepareSettled None None; Connect;
                      Incoming (GET "/"); DelegateSettled 0])
  = [(GET "/",
      {| statusCode := 200; headersSent := Some 200;
         body := ["<html>ok</html>"]; ended := true; closed := false |})].
Proof.
  pose proof (success_is_verbatim ∅ demo_parse demo_handle
                (demo_run ∅ [PrepareSettled None None; Connect;
                             Incoming (GET "/")])
                0 (GET "/") "/"
                {| statusCode := 200; headersSent := Some 200;
                   body := ["<html>ok</html>"]; ended := true; closed := false |}
                eq_refl eq_refl eq_refl eq_refl) as (H & _).
  exact H.
Defined.


Lemma exit_status_meaning_witness :
  connections (demo_run ∅ [PrepareSettled None None; Signal SIGTERM]) = 0.
Proof.
  assert (status (demo_run ∅ [PrepareSettled None None; Signal SIGTERM])
          = Some (Exited 0)) as Hs by reflexivity.
  destruct (exit_status_meaning ∅ demo_parse demo_handle
              (demo_run ∅ [PrepareSettled None None; Signal SIGTERM]) 0
              (demo_reachable _ _) Hs) as [(_ & _ & _ & H & _) | H].
  - exact H.
  - discriminate H.
Defined.

Lemma signal_before_prepare_witness :
  status (demo_step ∅ init (Signal SIGINT)) = Some (Killed SIGINT).
Proof.
  exact (proj1 (signal_before_prepare ∅ demo_parse demo_handle init SIGINT
                  (reach_init _ _ _) eq_refl eq_refl)).
Defined.

Lemma shutdown_is_bounded_witness :
  status (demo_run ∅ [PrepareSettled None None; Connect; Signal SIGTERM;
                      Elapse 4000; Incoming (GET "/"); Elapse 6000]) <> None.
Proof.
  assert (10000 <= elapsed [Elapse 4000; Incoming (GET "/"); Elapse 6000])
    as Hlong by (simpl; lia).
  exact (proj2 (shutdown_is_bounded ∅ demo_parse demo_handle
                  (demo_run ∅ [PrepareSettled None None; Connect]) SIGTERM
                  [Elapse 4000; Incoming (GET "/"); Elapse 6000]
                  (demo_reachable _ _) eq_refl) Hlong).
Defined.

Lemma shutdown_state_monotone_witness :
  (rank (shutdownState draining_demo)
   <= rank (shutdownState (demo_step ∅ draining_demo Connect)))%nat.
Proof.
  exact (proj1 (shutdown_state_monotone ∅ demo_parse demo_handle
                  draining_demo Connect (demo_reachable _ _))).
Defined.


Lemma draining_serves_open_connections_witness :
  demo_step ∅ draining_demo Connect = draining_demo /\
  executing (demo_step ∅ draining_demo (Incoming (GET "/"))) = [GET "/"].
Proof.
  destruct (draining_serves_open_connections ∅ demo_parse demo_handle
              draining_demo (demo_reachable _ _) eq_refl) as [H1 H2].
  split; [exact H1 | exact (proj1 (H2 (GET "/")))].
Defined.


(** ** The active-index store *)

Lemma Store_after_calls_snoc (indices : list Store.value) (index : Store.value) :
  Store.after_calls (indices ++ [index])
  = Store.setActiveIndex index (Store.after_calls indices).
Proof. unfold Store.after_calls. by rewrite fold_left_app. Qed.

Lemma Store_setActiveIndex_insert (index : Store.value) (st : Store.state) :
  Store.setActiveIndex index st = <["activeIndex" := index]> st.
Proof.
  unfold Store.setActiveIndex, Store.set.
  by rewrite insert_union_singleton_l.
Qed.

(** After any series of calls of [setActiveIndex] the store holds the index
    of the last call (2 if there was none), whatever was passed: nothing is
    checked or clamped.  The action itself stays in the store, and no field
    is added or removed. *)
Theorem Store_last_write_wins (indices : list Store.value) :
  Store.after_calls indices !! "activeIndex"
  = Some (default (Store.VNum 2) (last indices)) /\
  Store.after_calls indices !! "setActiveIndex" = Some Store.VAction /\
  dom (Store.after_calls indices) = dom Store.initial.
Proof.
  induction indices as [|index indices IH] using rev_ind.
  - by vm_compute.
  - destruct IH as (_ & Hact & Hdom).
    rewrite Store_after_calls_snoc, Store_setActiveIndex_insert, last_snoc.
    split; [by rewrite lookup_insert_eq|]. split.
    + by rewrite lookup_insert_ne.
    + rewrite dom_insert_L, Hdom. unfold Store.initial.
      rewrite dom_insert_L. set_solver.
Qed.
